(** * research_graph: entity resolution and idempotent graph construction

    A shallow embedding of [main.py] and of the schema provisioned by
    [reset_db.py], together with the properties of the name normaliser, the
    document truncation, the graph store operations and the pipeline driver.

    Strings.  A Python [str] is embedded as a list of characters, each
    character being a code point in the range U+0000..U+00FF (type [ascii]).
    On that range [str.lower] and [str.isspace] are plain per-character
    tables, which are written out below. *)

From Stdlib Require Import ZArith Ascii String List Lia Bool.
From stdpp Require Import gmap strings list.

Open Scope Z_scope.

Abbreviation str := (list ascii).

(** A literal, as a list of characters. *)
Definition lit (s : string) : str := list_ascii_of_string s.

Definition len (s : str) : Z := Z.of_nat (length s).

(** ** Character tables of [str.isspace] and [str.lower] on U+0000..U+00FF *)

Definition code (c : ascii) : N := N_of_ascii c.

(** [str.isspace]: TAB..CR, FS..US, SPACE, NEL and NBSP. *)
Definition isspace (c : ascii) : bool :=
  let n := code c in
  ((9 <=? n) && (n <=? 13) || (28 <=? n) && (n <=? 32)
   || (n =? 133) || (n =? 160))%N.

(** [str.lower] on one character: A..Z, and the Latin-1 capitals U+00C0..U+00DE
    except the multiplication sign U+00D7, move up by 32. *)
Definition lower_char (c : ascii) : ascii :=
  let n := code c in
  (if (65 <=? n) && (n <=? 90)
      || (192 <=? n) && (n <=? 222) && negb (n =? 215)
   then ascii_of_N (n + 32) else c)%N.

Definition lower (s : str) : str := map lower_char s.

(** [str.upper] restricted to the letters a..z. *)
Definition upper_ascii_char (c : ascii) : ascii :=
  let n := code c in
  (if (97 <=? n) && (n <=? 122) then ascii_of_N (n - 32) else c)%N.

(** ** [str.strip], [str.replace], [str.endswith] *)

Fixpoint lstrip (s : str) : str :=
  match s with
  | [] => []
  | c :: r => if isspace c then lstrip r else s
  end.

Fixpoint rstrip (s : str) : str :=
  match s with
  | [] => []
  | c :: r =>
      match rstrip r with
      | [] => if isspace c then [] else [c]
      | r' => c :: r'
      end
  end.

Definition strip (s : str) : str := rstrip (lstrip s).

Fixpoint startswith (p s : str) : bool :=
  match p, s with
  | [], _ => true
  | _ :: _, [] => false
  | a :: p', b :: s' => bool_decide (a = b) && startswith p' s'
  end.

Definition endswith (s p : str) : bool := startswith (rev p) (rev s).

(** [s.replace(old, new)] for a non-empty [old]: the occurrences are found
    from left to right and do not overlap.  [skip] counts the characters of
    an occurrence that are still to be passed over. *)
Fixpoint replace_from (old new : str) (skip : nat) (s : str) : str :=
  match s with
  | [] => []
  | c :: r =>
      match skip with
      | S k => replace_from old new k r
      | O =>
          if startswith old s
          then new ++ replace_from old new (length old - 1) r
          else c :: replace_from old new 0 r
      end
  end.

Definition replace (old new s : str) : str := replace_from old new 0 s.

(** ** [normalize_key] (main.py, lines 35-42) *)

Definition normalize_key (text : str) : str :=
  match text with
  | [] => []
  | _ => replace (lit "_") (lit " ") (replace (lit "-") (lit " ") (strip (lower text)))
  end.


(** ** Pydantic models (main.py, lines 19-32) *)

Record GraphNode := {
  name : str;
  type : str;
  description : option str
}.

Record GraphEdge := {
  source : str;
  target : str;
  relation : str;
  context : str
}.

Record ExtractionResult := {
  nodes : list GraphNode;
  edges : list GraphEdge
}.

(** ** The persisted schema (reset_db.py, lines 24-46)

    The two CREATE TABLE statements, as data.  A column records its type, its
    NOT NULL and PRIMARY KEY markers, its DEFAULT and its REFERENCES clause;
    a table records its columns and its table-level UNIQUE constraints. *)

Inductive sql_type := UUID | TEXT | JSONB | TIMESTAMPTZ.

Inductive sql_default := NoDefault | UuidGenerateV4 | EmptyObject | Now.

Record column := {
  col_name : string;
  col_type : sql_type;
  col_primary_key : bool;
  col_not_null : bool;
  col_default : sql_default;
  (* REFERENCES table(column) ON DELETE CASCADE *)
  col_references : option (string * string)
}.

Record table := {
  table_name : string;
  table_columns : list column;
  (* CONSTRAINT ... UNIQUE (columns) *)
  table_unique : list (list string)
}.

Definition nodes_table : table := {|
  table_name := "nodes";
  table_columns := [
    {| col_name := "id"; col_type := UUID; col_primary_key := true;
       col_not_null := true; col_default := UuidGenerateV4; col_references := None |};
    {| col_name := "name"; col_type := TEXT; col_primary_key := false;
       col_not_null := true; col_default := NoDefault; col_references := None |};
    {| col_name := "type"; col_type := TEXT; col_primary_key := false;
       col_not_null := true; col_default := NoDefault; col_references := None |};
    {| col_name := "properties"; col_type := JSONB; col_primary_key := false;
       col_not_null := false; col_default := EmptyObject; col_references := None |};
    {| col_name := "created_at"; col_type := TIMESTAMPTZ; col_primary_key := false;
       col_not_null := false; col_default := Now; col_references := None |} ];
  table_unique := [ ["name"; "type"] ]
|}.

Definition edges_table : table := {|
  table_name := "edges";
  table_columns := [
    {| col_name := "id"; col_type := UUID; col_primary_key := true;
       col_not_null := true; col_default := UuidGenerateV4; col_references := None |};
    {| col_name := "source_id"; col_type := UUID; col_primary_key := false;
       col_not_null := true; col_default := NoDefault;
       col_references := Some ("nodes", "id") |};
    {| col_name := "target_id"; col_type := UUID; col_primary_key := false;
       col_not_null := true; col_default := NoDefault;
       col_references := Some ("nodes", "id") |};
    {| col_name := "type"; col_type := TEXT; col_primary_key := false;
       col_not_null := true; col_default := NoDefault; col_references := None |};
    {| col_name := "citation_context"; col_type := TEXT; col_primary_key := false;
       col_not_null := false; col_default := NoDefault; col_references := None |};
    {| col_name := "properties"; col_type := JSONB; col_primary_key := false;
       col_not_null := false; col_default := EmptyObject; col_references := None |};
    {| col_name := "created_at"; col_type := TIMESTAMPTZ; col_primary_key := false;
       col_not_null := false; col_default := Now; col_references := None |} ];
  table_unique := []
|}.

(** The column sets on which the database refuses a second equal row: the
    primary key and every UNIQUE constraint. *)
Definition unique_keys (t : table) : list (list string) :=
  map (fun c => [col_name c]) (List.filter (fun c => col_primary_key c) (table_columns t))
  ++ table_unique t.

(** Does the table declare a uniqueness constraint (primary key apart) on
    exactly these columns? *)
Definition has_unique_constraint (t : table) (cols : list string) : bool :=
  bool_decide (cols ∈ table_unique t).

(** ** Rows and the store

    Identifiers stand for the UUIDs drawn by [uuid_generate_v4()]: the store
    carries a supply from which every insertion takes the next one, so an
    identifier is never handed out twice.  A JSONB object is a list of keys
    with a string or null value.  The [created_at] column is filled by the
    database clock and read by no operation; rows do not carry it. *)

Abbreviation uuid := nat.

Abbreviation jsonb := (list (string * option str)).

Record node_row := {
  node_id : uuid;
  node_name : str;
  node_type : str;
  node_properties : jsonb
}.

Record edge_row := {
  edge_id : uuid;
  edge_source_id : uuid;
  edge_target_id : uuid;
  edge_type : str;
  edge_citation_context : option str;
  edge_properties : jsonb
}.

Record store := {
  tbl_nodes : list node_row;
  tbl_edges : list edge_row;
  uuid_supply : uuid
}.

(** The database as [reset_database] leaves it: both tables empty. *)
Definition reset_database : store :=
  {| tbl_nodes := []; tbl_edges := []; uuid_supply := 1%nat |}.

Inductive value := VUuid (u : uuid) | VText (s : str) | VNull.

Global Instance value_eq_dec : EqDecision value.
Proof. solve_decision. Defined.

Definition node_col (c : string) (r : node_row) : option value :=
  if String.eqb c "id" then Some (VUuid (node_id r))
  else if String.eqb c "name" then Some (VText (node_name r))
  else if String.eqb c "type" then Some (VText (node_type r))
  else None.

Definition edge_col (c : string) (r : edge_row) : option value :=
  if String.eqb c "id" then Some (VUuid (edge_id r))
  else if String.eqb c "source_id" then Some (VUuid (edge_source_id r))
  else if String.eqb c "target_id" then Some (VUuid (edge_target_id r))
  else if String.eqb c "type" then Some (VText (edge_type r))
  else if String.eqb c "citation_context" then
    Some (match edge_citation_context r with Some t => VText t | None => VNull end)
  else None.

(** Two rows collide on a key when they agree, with non-null values, on each
    of its columns. *)
Definition collide {R} (col : string -> R -> option value) (key : list string)
    (r r' : R) : bool :=
  forallb (fun c =>
    match col c r, col c r' with
    | Some VNull, _ | _, Some VNull => false
    | Some v, Some v' => bool_decide (v = v')
    | _, _ => false
    end) key.

Definition unique_violation {R} (t : table) (col : string -> R -> option value)
    (rows : list R) (r : R) : bool :=
  existsb (fun key => existsb (collide col key r) rows) (unique_keys t).

(** ** Exceptions, output and the pipeline monad *)

Inductive db_error := UniqueViolation | ForeignKeyViolation.

Inductive exn :=
  | OperationalError          (* psycopg2.connect *)
  | IntegrityError (e : db_error)
  | PdfReadError              (* PdfReader(file_path) *)
  | LlmError.                 (* structured_llm.invoke *)

Inductive res (A : Type) := Ok (a : A) | Raise (e : exn).
Arguments Ok {A} a.
Arguments Raise {A} e.

(** The prompt of [extract_graph]: a fixed template with two holes, the
    paper title and the excerpt of the text. *)
Record prompt := {
  prompt_title : str;
  prompt_text : str
}.

Inductive event :=
  | PrintNoDatabaseUrl
  | PrintNoPapersDir
  | PrintNoPdfs
  | PrintFound (n : nat)
  | PrintWarningPage (file_path : str)
  | PrintSkipping (filename : str)
  | PrintAnalyzing (paper_title : str)
  | InvokeLlm (p : prompt)
  | PrintExtracted (n m : nat)
  | PrintErrorAnalyzing (filename : str) (e : exn)
  | PrintSkippedEdges (k : Z)
  | PrintComplete.

Record world := {
  db : store;
  out : list event
}.

Definition M (A : Type) : Type := world -> world * res A.

Definition ret {A} (a : A) : M A := fun w => (w, Ok a).

Definition raise {A} (e : exn) : M A := fun w => (w, Raise e).

Definition bind {A B} (m : M A) (k : A -> M B) : M B :=
  fun w => match m w with
           | (w', Ok a) => k a w'
           | (w', Raise e) => (w', Raise e)
           end.

Notation "x <- m ;; k" := (bind m (fun x => k))
  (at level 100, m at next level, right associativity).

(** [try: m except Exception as e: h e] *)
Definition try_except {A} (m : M A) (h : exn -> M A) : M A :=
  fun w => match m w with
           | (w', Ok a) => (w', Ok a)
           | (w', Raise e) => h e w'
           end.

Definition print (e : event) : M unit :=
  fun w => ({| db := db w; out := out w ++ [e] |}, Ok tt).

Definition get_db : M store := fun w => (w, Ok (db w)).

Definition put_db (s : store) : M unit :=
  fun w => ({| db := s; out := out w |}, Ok tt).

(** ** Database layer (main.py, lines 45-97)

    The connection runs in autocommit mode: every statement takes effect on
    its own, and a statement that raises leaves the tables as they were. *)

(** [SELECT id FROM nodes WHERE name = %s AND type = %s], then [fetchone()]. *)
Definition select_node_id (nm ty : str) (s : store) : option uuid :=
  node_id <$> List.find (fun r => bool_decide (node_name r = nm) && bool_decide (node_type r = ty))
                        (tbl_nodes s).

(** [SELECT id FROM edges WHERE source_id = %s AND target_id = %s AND type = %s],
    then [fetchone()]. *)
Definition select_edge_id (src tgt : uuid) (ty : str) (s : store) : option uuid :=
  edge_id <$> List.find (fun r => bool_decide (edge_source_id r = src)
                             && bool_decide (edge_target_id r = tgt)
                             && bool_decide (edge_type r = ty))
                   (tbl_edges s).

(** [INSERT INTO nodes (name, type, properties) VALUES (...) RETURNING id] *)
Definition insert_node (nm ty : str) (props : jsonb) : M uuid := fun w =>
  let s := db w in
  let r := {| node_id := uuid_supply s; node_name := nm; node_type := ty;
              node_properties := props |} in
  if unique_violation nodes_table node_col (tbl_nodes s) r
  then (w, Raise (IntegrityError UniqueViolation))
  else ({| db := {| tbl_nodes := tbl_nodes s ++ [r];
                    tbl_edges := tbl_edges s;
                    uuid_supply := S (uuid_supply s) |};
           out := out w |}, Ok (node_id r)).

Definition node_exists (i : uuid) (s : store) : bool :=
  existsb (fun r => bool_decide (node_id r = i)) (tbl_nodes s).

(** [INSERT INTO edges (source_id, target_id, type, citation_context) VALUES (...)] *)
Definition insert_edge (src tgt : uuid) (ty ctx : str) : M unit := fun w =>
  let s := db w in
  let r := {| edge_id := uuid_supply s; edge_source_id := src; edge_target_id := tgt;
              edge_type := ty; edge_citation_context := Some ctx;
              edge_properties := [] |} in
  if negb (node_exists src s && node_exists tgt s)
  then (w, Raise (IntegrityError ForeignKeyViolation))
  else if unique_violation edges_table edge_col (tbl_edges s) r
  then (w, Raise (IntegrityError UniqueViolation))
  else ({| db := {| tbl_nodes := tbl_nodes s;
                    tbl_edges := tbl_edges s ++ [r];
                    uuid_supply := S (uuid_supply s) |};
           out := out w |}, Ok tt).

Definition get_or_create_node (node : GraphNode) (paper_source : str) : M uuid :=
  s <- get_db ;;
  match select_node_id (name node) (type node) s with
  | Some i => ret i
  | None =>
      let props := [("description"%string, description node);
                    ("source_paper"%string, Some paper_source)] in
      insert_node (name node) (type node) props
  end.

Definition create_edge (source_id target_id : uuid) (edge : GraphEdge) : M unit :=
  s <- get_db ;;
  match select_edge_id source_id target_id (relation edge) s with
  | Some _ => ret tt
  | None => insert_edge source_id target_id (relation edge) (context edge)
  end.

(** ** Agent layer (main.py, lines 100-138) *)

(** [text[:n]] and [text[-n:]] for a non-negative [n]. *)
Definition slice_to (n : Z) (s : str) : str := take (Z.to_nat n) s.

Definition slice_last (n : Z) (s : str) : str :=
  drop (Z.to_nat (Z.max 0 (len s - n))) s.

Definition extract_graph (structured_llm : prompt -> res ExtractionResult)
    (text paper_title : str) : M ExtractionResult :=
  _ <- print (PrintAnalyzing paper_title) ;;
  let p := {| prompt_title := paper_title; prompt_text := slice_to 40000 text |} in
  _ <- print (InvokeLlm p) ;;
  match structured_llm p with
  | Ok r => ret r
  | Raise e => raise e
  end.

(** ** PDF text extraction (main.py, lines 141-177) *)

(** What [page.extract_text()] does on one page. *)
Inductive page := PageText (t : str) | PageRaises.

Definition nl : ascii := ascii_of_N 10.
Definition tab : ascii := ascii_of_N 9.
Definition nul : ascii := ascii_of_N 0.

Fixpoint read_pages (file_path : str) (pages : list page) (full_text : str) : M str :=
  match pages with
  | [] => ret full_text
  | PageText t :: rest =>
      match t with
      | [] => read_pages file_path rest full_text
      | _ => read_pages file_path rest (full_text ++ t ++ [nl])
      end
  | PageRaises :: rest =>
      _ <- print (PrintWarningPage file_path) ;;
      read_pages file_path rest full_text
  end.

(** Lines 155-159: null bytes removed, tabs turned into spaces, then strip. *)
Definition cleanup (full_text : str) : str :=
  strip (replace [tab] (lit " ") (replace [nul] [] full_text)).

Definition separator : str :=
  [nl; nl] ++ lit "...[SECTION SKIPPED FOR TOKEN LIMIT]..." ++ [nl; nl].

(** Lines 164-177, the truncation step. *)
Definition truncate (full_text : str) : str :=
  let limit := 40000 in
  if len full_text <=? limit then full_text
  else
    let head := slice_to 35000 full_text in
    let tail := slice_last 5000 full_text in
    head ++ separator ++ tail.

(** [reader] is what [PdfReader(file_path)] gives: the pages, or an exception. *)
Definition process_pdf (file_path : str) (reader : res (list page)) : M str :=
  match reader with
  | Raise e => raise e
  | Ok pages =>
      full_text <- read_pages file_path pages [] ;;
      let full_text := cleanup full_text in
      if len full_text <? 500 then ret []
      else ret (truncate full_text)
  end.

(** ** Main pipeline (main.py, lines 180-248) *)

(** One entry of the papers directory, with what the two external
    collaborators do for it. *)
Record dir_entry := {
  filename : str;
  pdf_reader : res (list page);
  structured_llm : prompt -> res ExtractionResult
}.

Definition PAPERS_DIR : str := lit "./papers".

(** Lines 218-226: the first pass, over the candidate nodes. *)
Fixpoint create_nodes (ns : list GraphNode) (paper_title : str)
    (node_map : gmap str uuid) : M (gmap str uuid) :=
  match ns with
  | [] => ret node_map
  | node :: rest =>
      node_id <- get_or_create_node node paper_title ;;
      let norm_name := normalize_key (name node) in
      create_nodes rest paper_title (<[norm_name := node_id]> node_map)
  end.

(** Lines 229-243: the second pass, over the candidate edges.  An identifier
    is a non-empty UUID string, so [source_id and target_id] holds exactly
    when both lookups found one. *)
Fixpoint create_edges (es : list GraphEdge) (node_map : gmap str uuid)
    (skipped_edges : Z) : M Z :=
  match es with
  | [] => ret skipped_edges
  | edge :: rest =>
      let source_key := normalize_key (source edge) in
      let target_key := normalize_key (target edge) in
      match node_map !! source_key, node_map !! target_key with
      | Some source_id, Some target_id =>
          _ <- create_edge source_id target_id edge ;;
          create_edges rest node_map skipped_edges
      | _, _ => create_edges rest node_map (skipped_edges + 1)
      end
  end.

(** Lines 217-246: what is done with one extraction result. *)
Definition consume (graph_data : ExtractionResult) (paper_title : str) : M Z :=
  node_map <- create_nodes (nodes graph_data) paper_title ∅ ;;
  skipped_edges <- create_edges (edges graph_data) node_map 0 ;;
  _ <- (if 0 <? skipped_edges then print (PrintSkippedEdges skipped_edges) else ret tt) ;;
  ret skipped_edges.

(** Lines 200-246: the body of the loop over the files. *)
Definition process_file (d : dir_entry) : M unit :=
  let file_path := PAPERS_DIR ++ lit "/" ++ filename d in
  let paper_title := replace (lit "_") (lit " ") (replace (lit ".pdf") [] (filename d)) in
  raw_text <- process_pdf file_path (pdf_reader d) ;;
  match raw_text with
  | [] => print (PrintSkipping (filename d))
  | _ =>
      r <- try_except
             (graph_data <- extract_graph (structured_llm d) raw_text paper_title ;;
              _ <- print (PrintExtracted (length (nodes graph_data))
                                         (length (edges graph_data))) ;;
              ret (Some graph_data))
             (fun e => _ <- print (PrintErrorAnalyzing (filename d) e) ;; ret None) ;;
      match r with
      | None => ret tt
      | Some graph_data => _ <- consume graph_data paper_title ;; ret tt
      end
  end.

Fixpoint main_loop (pdf_files : list dir_entry) : M unit :=
  match pdf_files with
  | [] => ret tt
  | d :: rest => _ <- process_file d ;; main_loop rest
  end.

Record environment := {
  DATABASE_URL : option str;
  (* whether psycopg2.connect succeeds *)
  reachable_db : bool;
  (* ResearchAgent(), line 186: the constructor of the language model client
     returns, or raises (for instance without an API key) *)
  research_agent : res unit;
  (* os.listdir(PAPERS_DIR), when the directory exists *)
  papers_dir : option (list dir_entry)
}.

Definition main (env : environment) : M unit :=
  match DATABASE_URL env with
  | None | Some [] => print PrintNoDatabaseUrl
  | Some _ =>
      if negb (reachable_db env) then raise OperationalError
      else
        match research_agent env with
        | Raise e => raise e
        | Ok _ =>
            match papers_dir env with
            | None => print PrintNoPapersDir
            | Some listing =>
                let pdf_files := List.filter (fun d => endswith (filename d) (lit ".pdf")) listing in
                match pdf_files with
                | [] => print PrintNoPdfs
                | _ =>
                    _ <- print (PrintFound (length pdf_files)) ;;
                    _ <- main_loop pdf_files ;;
                    print PrintComplete
                end
            end
        end
  end.

(** ** Auxiliary notions used in the statements *)

Definition is_sep (c : ascii) : bool :=
  bool_decide (c = "-"%char) || bool_decide (c = "_"%char).

(** What the two [replace] calls of [normalize_key] do to one character. *)
Definition sep_to_space (c : ascii) : ascii :=
  if is_sep c then " "%char else c.

(** Does the name, once trimmed, begin or end with a hyphen or underscore? *)
Definition sep_at_edge (s : str) : bool :=
  match head (strip s), last (strip s) with
  | Some a, Some b => is_sep a || is_sep b
  | _, _ => false
  end.

(** Two characters that are equal or both a hyphen or underscore. *)
Definition same_sep (c d : ascii) : Prop :=
  c = d \/ (is_sep c = true /\ is_sep d = true).

Definition has_visible (s : str) : bool := existsb (fun c => negb (isspace c)) s.

(** *** Counting rows, and what holds of a store *)

Definition node_matches (nm ty : str) (r : node_row) : bool :=
  bool_decide (node_name r = nm) && bool_decide (node_type r = ty).

Definition edge_matches (src tgt : uuid) (ty : str) (r : edge_row) : bool :=
  bool_decide (edge_source_id r = src) && bool_decide (edge_target_id r = tgt)
  && bool_decide (edge_type r = ty).

(** Number of stored nodes with this (name, type) pair. *)
Definition count_nodes (nm ty : str) (s : store) : nat :=
  length (List.filter (node_matches nm ty) (tbl_nodes s)).

(** Number of stored edges with this (source_id, target_id, type) triple. *)
Definition count_edges (src tgt : uuid) (ty : str) (s : store) : nat :=
  length (List.filter (edge_matches src tgt ty) (tbl_edges s)).

(** Number of stored nodes with this type tag. *)
Definition count_type (ty : str) (s : store) : nat :=
  length (List.filter (fun r => bool_decide (node_type r = ty)) (tbl_nodes s)).

(** What the schema guarantees of the tables, with identifiers drawn from
    the supply: identifiers already in use lie below the supply, no two nodes
    share a (name, type) pair, and both ends of every edge are nodes. *)
Definition schema_valid (s : store) : bool :=
  forallb (fun r => (node_id r <? uuid_supply s)%nat) (tbl_nodes s)
  && forallb (fun e => (edge_id e <? uuid_supply s)%nat) (tbl_edges s)
  && forallb (fun r => (count_nodes (node_name r) (node_type r) s <=? 1)%nat) (tbl_nodes s)
  && forallb (fun e => node_exists (edge_source_id e) s && node_exists (edge_target_id e) s)
             (tbl_edges s).

(** No two edges share a (source_id, target_id, type) triple.  The schema
    does not ask for it; [create_edge] keeps it. *)
Definition edges_unique (s : store) : bool :=
  forallb (fun e => (count_edges (edge_source_id e) (edge_target_id e) (edge_type e) s <=? 1)%nat)
          (tbl_edges s).

(** The propositional reading of [schema_valid] and [edges_unique]. *)
Record Valid (s : store) : Prop := {
  valid_node_ids : forall r, In r (tbl_nodes s) -> (node_id r < uuid_supply s)%nat;
  valid_edge_ids : forall e, In e (tbl_edges s) -> (edge_id e < uuid_supply s)%nat;
  valid_pairs : forall nm ty, (count_nodes nm ty s <= 1)%nat;
  valid_ends : forall e, In e (tbl_edges s) ->
      node_exists (edge_source_id e) s = true /\ node_exists (edge_target_id e) s = true
}.

Definition Distinct (s : store) : Prop :=
  forall src tgt ty, (count_edges src tgt ty s <= 1)%nat.

(** The second store holds the rows of the first, and possibly more. *)
Definition grows (s s' : store) : Prop :=
  (exists extra, tbl_nodes s' = tbl_nodes s ++ extra) /\
  (exists extra, tbl_edges s' = tbl_edges s ++ extra) /\
  (uuid_supply s <= uuid_supply s')%nat.

(** The store after one more row in a table. *)
Definition add_node (s : store) (nm ty : str) (props : jsonb) : store :=
  {| tbl_nodes := tbl_nodes s ++ [{| node_id := uuid_supply s; node_name := nm;
                                     node_type := ty; node_properties := props |}];
     tbl_edges := tbl_edges s;
     uuid_supply := S (uuid_supply s) |}.

Definition add_edge (s : store) (src tgt : uuid) (ty ctx : str) : store :=
  {| tbl_nodes := tbl_nodes s;
     tbl_edges := tbl_edges s ++ [{| edge_id := uuid_supply s; edge_source_id := src;
                                     edge_target_id := tgt; edge_type := ty;
                                     edge_citation_context := Some ctx;
                                     edge_properties := [] |}];
     uuid_supply := S (uuid_supply s) |}.

Definition with_db (w : world) (s : store) : world := {| db := s; out := out w |}.

Definition node_properties_of (node : GraphNode) (paper_source : str) : jsonb :=
  [("description"%string, description node); ("source_paper"%string, Some paper_source)].

(** The stores that the two operations of the database layer build from an
    empty database. *)
Inductive reachable : store -> Prop :=
  | reach_reset : reachable reset_database
  | reach_node node paper_source w w' i :
      reachable (db w) ->
      get_or_create_node node paper_source w = (w', Ok i) ->
      reachable (db w')
  | reach_edge src tgt edge w w' :
      reachable (db w) ->
      create_edge src tgt edge w = (w', Ok tt) ->
      reachable (db w').

(** *** The candidate lists of one document *)

Definition node_keys (ns : list GraphNode) : list str :=
  map (fun n => normalize_key (name n)) ns.

(** An edge one of whose names, normalised, is the key of no candidate node. *)
Definition dangling (ns : list GraphNode) (e : GraphEdge) : bool :=
  negb (bool_decide (normalize_key (source e) ∈ node_keys ns)
        && bool_decide (normalize_key (target e) ∈ node_keys ns)).

(** An edge that the lookup map does not resolve. *)
Definition unresolved (node_map : gmap str uuid) (e : GraphEdge) : bool :=
  match node_map !! normalize_key (source e), node_map !! normalize_key (target e) with
  | Some _, Some _ => false
  | _, _ => true
  end.

(** *** The text and the warnings that the pages of a document give *)

Fixpoint pages_text (pages : list page) : str :=
  match pages with
  | [] => []
  | PageText [] :: rest => pages_text rest
  | PageText t :: rest => t ++ [nl] ++ pages_text rest
  | PageRaises :: rest => pages_text rest
  end.

Fixpoint page_warnings (file_path : str) (pages : list page) : list event :=
  match pages with
  | [] => []
  | PageText _ :: rest => page_warnings file_path rest
  | PageRaises :: rest => PrintWarningPage file_path :: page_warnings file_path rest
  end.

Definition is_invoke (e : event) : bool :=
  match e with InvokeLlm _ => true | _ => false end.

Definition file_path_of (d : dir_entry) : str := PAPERS_DIR ++ lit "/" ++ filename d.

Definition paper_title_of (d : dir_entry) : str :=
  replace (lit "_") (lit " ") (replace (lit ".pdf") [] (filename d)).

(** A file from which [process_pdf] gets a usable text. *)
Definition readable (d : dir_entry) : bool :=
  match pdf_reader d with
  | Ok pages => 500 <=? len (cleanup (pages_text pages))
  | Raise _ => false
  end.

(** What [process_pdf] returns for a file that can be opened, the warnings
    it prints on the way, and the prompt built from its result. *)
Definition raw_text_of (d : dir_entry) : str :=
  match pdf_reader d with
  | Ok pages =>
      let full_text := cleanup (pages_text pages) in
      if len full_text <? 500 then [] else truncate full_text
  | Raise _ => []
  end.

Definition warnings_of (d : dir_entry) : list event :=
  match pdf_reader d with
  | Ok pages => page_warnings (file_path_of d) pages
  | Raise _ => []
  end.

Definition prompt_of (d : dir_entry) : prompt :=
  {| prompt_title := paper_title_of d; prompt_text := slice_to 40000 (raw_text_of d) |}.

Definition with_out (w : world) (o : list event) : world := {| db := db w; out := o |}.

(** The candidate node of the two-document scenario. *)
Definition method_node (nm : string) (descr : option str) : GraphNode :=
  {| name := lit nm; type := lit "Method"; description := descr |}.

(** *** Further notions for the properties of the whole pipeline *)

(** The lookup map that the first pass builds, read off a store that already
    holds every candidate node. *)
Fixpoint lookup_nodes (s : store) (ns : list GraphNode) (m : gmap str uuid) : gmap str uuid :=
  match ns with
  | [] => m
  | n :: rest =>
      match select_node_id (name n) (type n) s with
      | Some i => lookup_nodes s rest (<[normalize_key (name n) := i]> m)
      | None => lookup_nodes s rest m
      end
  end.


(** No two nodes share an identifier (the primary key of the nodes table). *)
Definition ids_unique (s : store) : bool :=
  bool_decide (NoDup (map node_id (tbl_nodes s))).

(** Every edge carries a citation context. *)
Definition contexts_present (s : store) : bool :=
  forallb (fun e => bool_decide (is_Some (edge_citation_context e))) (tbl_edges s).

Definition is_upper_ascii (c : ascii) : bool :=
  let n := code c in ((65 <=? n) && (n <=? 90))%N.

(** *** Text that the database takes

    [cursor.execute] refuses a parameter that holds U+0000, and PostgreSQL
    refuses its escape inside a JSONB value; main.py removes that character
    from the text of a PDF only (line 156), not from what the language model
    answers.  The store operations above describe the calls whose text
    parameters are free of it: the name, the type, the description and the
    paper title for a node, the relation and the context for an edge (the
    two names of an edge are looked up in the map and never sent). *)
Definition nul_free (s : str) : bool :=
  forallb (fun c => negb (bool_decide (c = nul))) s.

Definition nul_free_opt (o : option str) : bool :=
  match o with Some s => nul_free s | None => true end.


Definition plain_edge (e : GraphEdge) : bool :=
  nul_free (relation e) && nul_free (context e).



Definition plain_jsonb (j : jsonb) : bool :=
  forallb (fun kv => nul_free_opt (snd kv)) j.

Definition plain_node_row (r : node_row) : bool :=
  nul_free (node_name r) && nul_free (node_type r) && plain_jsonb (node_properties r).

Definition plain_edge_row (e : edge_row) : bool :=
  nul_free (edge_type e) && nul_free_opt (edge_citation_context e)
  && plain_jsonb (edge_properties e).

(** No text of the store holds U+0000. *)
Definition plain_store (s : store) : bool :=
  forallb plain_node_row (tbl_nodes s) && forallb plain_edge_row (tbl_edges s).

(** ** The status script (check_db.py)

    What [check_database] prints, line by line, for what [psycopg2.connect]
    gives.  A query without ORDER BY is read in the order of the table, and
    the join is read edge by edge. *)

Module CheckDb.

Inductive line :=
  | StatusCheck
  | NodesInDb (node_count : nat)
  | EdgesInDb (edge_count : nat)
  | WarningEmpty
  | SampleNodesHeader
  | SampleNode (name type_ : str)
  | SampleRelationshipsHeader
  | NoEdgesFound
  | SampleRelationship (source relation target : str)
  | ErrorConnecting.

(** [FROM edges edge JOIN nodes source ON edge.source_id = source.id
     JOIN nodes target ON edge.target_id = target.id] *)
Definition edges_with_names (s : store) : list (str * str * str) :=
  flat_map (fun edge =>
    flat_map (fun source =>
      map (fun target => (node_name source, edge_type edge, node_name target))
          (List.filter (fun n => bool_decide (edge_target_id edge = node_id n)) (tbl_nodes s)))
      (List.filter (fun n => bool_decide (edge_source_id edge = node_id n)) (tbl_nodes s)))
    (tbl_edges s).

Definition check_database (conn : res store) : list line :=
  match conn with
  | Raise _ => [ErrorConnecting]
  | Ok s =>
      let node_count := length (tbl_nodes s) in
      let edge_count := length (tbl_edges s) in
      [StatusCheck; NodesInDb node_count; EdgesInDb edge_count]
      ++ match node_count with
         | O => [WarningEmpty]
         | _ =>
             let rows := take 5 (edges_with_names s) in
             [SampleNodesHeader]
             ++ map (fun r => SampleNode (node_name r) (node_type r)) (take 5 (tbl_nodes s))
             ++ [SampleRelationshipsHeader]
             ++ match rows with [] => [NoEdgesFound] | _ => [] end
             ++ map (fun row => SampleRelationship row.1.1 row.1.2 row.2) rows
         end
  end.

Definition is_sample_relationship (l : line) : bool :=
  match l with SampleRelationship _ _ _ => true | _ => false end.

End CheckDb.

(** ** The graph of the visualisation (visualize.py, lines 24-54)

    A networkx [DiGraph]: a node is a key with a dictionary of attributes,
    which is empty ([None]) for a node that only [add_edge] created; an
    edge is a pair of node keys with its attributes.  Adding a node or an
    edge that is there overwrites its attributes. *)

Module Visualize.

Record node_attrs := {
  attr_label : str;
  attr_title : str;
  attr_color : str;
  attr_size : Z
}.

Record edge_attrs := {
  attr_hover : str;     (* title= *)
  attr_text : str       (* label= *)
}.

Record DiGraph := {
  graph_nodes : gmap str (option node_attrs);
  graph_edges : gmap (str * str) edge_attrs
}.

Definition empty_graph : DiGraph := {| graph_nodes := ∅; graph_edges := ∅ |}.

Definition add_node (G : DiGraph) (key : str) (attrs : node_attrs) : DiGraph :=
  {| graph_nodes := <[key := Some attrs]> (graph_nodes G);
     graph_edges := graph_edges G |}.

Definition touch_node (nodes : gmap str (option node_attrs)) (key : str) :
    gmap str (option node_attrs) :=
  match nodes !! key with
  | Some _ => nodes
  | None => <[key := None]> nodes
  end.

Definition add_edge (G : DiGraph) (u v : str) (attrs : edge_attrs) : DiGraph :=
  {| graph_nodes := touch_node (touch_node (graph_nodes G) u) v;
     graph_edges := <[(u, v) := attrs]> (graph_edges G) |}.

Definition COLOR_MAP : list (str * str) :=
  [ (lit "Paper", lit "#ff9999");
    (lit "Concept", lit "#9fffe0");
    (lit "Metric", lit "#fff79a");
    (lit "Method", lit "#99c0ff");
    (lit "Dataset", lit "#ffcc99") ].

(** [COLOR_MAP.get(node_type, default)] *)
Definition color_of (node_type default : str) : str :=
  match List.find (fun kv => bool_decide (kv.1 = node_type)) COLOR_MAP with
  | Some kv => kv.2
  | None => default
  end.

Definition attrs_of (r : node_row) : node_attrs :=
  {| attr_label := node_name r;
     attr_title := node_type r;
     attr_color := color_of (node_type r) (lit "#a0a0a0");
     attr_size := 25 |}.

(** [{n[0]: n[1] for n in nodes}] *)
Definition id_to_name (nodes : list node_row) : gmap uuid str :=
  fold_left (fun m r => <[node_id r := node_name r]> m) nodes ∅.

Definition add_nodes (nodes : list node_row) (G : DiGraph) : DiGraph :=
  fold_left (fun G r => add_node G (node_name r) (attrs_of r)) nodes G.

Definition hover_text (edge_type context : str) : str :=
  edge_type ++ lit "<br><br>Context:<br>" ++ take 200 context ++ lit "...".

(** The two names under which an edge is drawn: both identifiers must be in
    [id_to_name], with a non-empty name. *)
Definition endpoints (names : gmap uuid str) (e : edge_row) : option (str * str) :=
  match names !! edge_source_id e, names !! edge_target_id e with
  | Some (c :: source), Some (d :: target) => Some (c :: source, d :: target)
  | _, _ => None
  end.

(** The loop over the edges; [None] is the TypeError of [context[:200]] on
    a null citation context. *)
Fixpoint add_edges (names : gmap uuid str) (edges : list edge_row) (G : DiGraph) :
    option DiGraph :=
  match edges with
  | [] => Some G
  | e :: rest =>
      match endpoints names e with
      | Some (source, target) =>
          match edge_citation_context e with
          | Some context =>
              add_edges names rest
                (add_edge G source target
                   {| attr_hover := hover_text (edge_type e) context;
                      attr_text := edge_type e |})
          | None => None
          end
      | None => add_edges names rest G
      end
  end.

(** The attributes under which an edge row is drawn. *)
Definition edge_attrs_of (e : edge_row) : edge_attrs :=
  {| attr_hover := hover_text (edge_type e)
                     (match edge_citation_context e with Some c => c | None => [] end);
     attr_text := edge_type e |}.

Definition build_graph (s : store) : option DiGraph :=
  add_edges (id_to_name (tbl_nodes s)) (tbl_edges s) (add_nodes (tbl_nodes s) empty_graph).

End Visualize.

(** * Properties of the string functions *)

Section Strings.

Lemma lower_char_idem c : lower_char (lower_char c) = lower_char c.
Proof. destruct c as [[] [] [] [] [] [] [] []]; reflexivity. Qed.

Lemma lower_char_upper c : lower_char (upper_ascii_char c) = lower_char c.
Proof. destruct c as [[] [] [] [] [] [] [] []]; reflexivity. Qed.

Lemma isspace_lower c : isspace (lower_char c) = isspace c.
Proof. destruct c as [[] [] [] [] [] [] [] []]; reflexivity. Qed.

Lemma is_sep_lower c : is_sep (lower_char c) = is_sep c.
Proof. destruct c as [[] [] [] [] [] [] [] []]; reflexivity. Qed.

Lemma lower_sep_to_space c : lower_char (sep_to_space (lower_char c)) = sep_to_space (lower_char c).
Proof. destruct c as [[] [] [] [] [] [] [] []]; reflexivity. Qed.

Lemma sep_to_space_idem c : sep_to_space (sep_to_space c) = sep_to_space c.
Proof. destruct c as [[] [] [] [] [] [] [] []]; reflexivity. Qed.

Lemma isspace_sep_to_space c : isspace (sep_to_space c) = isspace c || is_sep c.
Proof. destruct c as [[] [] [] [] [] [] [] []]; reflexivity. Qed.

Lemma is_sep_not_space c : is_sep c = true -> isspace c = false.
Proof. destruct c as [[] [] [] [] [] [] [] []]; vm_compute; congruence. Qed.

Lemma same_sep_to_space c d : same_sep c d -> sep_to_space c = sep_to_space d.
Proof.
  intros [-> | [Hc Hd]]; [reflexivity|].
  unfold sep_to_space. now rewrite Hc, Hd.
Qed.

Lemma same_sep_isspace c d : same_sep c d -> isspace c = isspace d.
Proof.
  intros [-> | [Hc Hd]]; [reflexivity|].
  now rewrite (is_sep_not_space _ Hc), (is_sep_not_space _ Hd).
Qed.

Lemma same_sep_lower c d : same_sep c d -> same_sep (lower_char c) (lower_char d).
Proof.
  intros [-> | [Hc Hd]]; [now left|].
  right. now rewrite !is_sep_lower.
Qed.

(** Replacing a one-character pattern is a character map. *)
Lemma replace_char a b s :
  replace [a] [b] s = map (fun c => if bool_decide (a = c) then b else c) s.
Proof.
  unfold replace. induction s as [|c r IH]; [reflexivity|].
  cbn [replace_from startswith length Nat.sub map app].
  rewrite andb_true_r. destruct (bool_decide (a = c)); cbn; now rewrite IH.
Qed.

Lemma replace_seps s :
  replace (lit "_") (lit " ") (replace (lit "-") (lit " ") s) = map sep_to_space s.
Proof.
  change (lit "_") with ["_"%char]. change (lit "-") with ["-"%char].
  change (lit " ") with [" "%char].
  rewrite !replace_char, map_map. apply map_ext. intros c.
  destruct c as [[] [] [] [] [] [] [] []]; reflexivity.
Qed.

Lemma normalize_key_eq s : normalize_key s = map sep_to_space (strip (lower s)).
Proof. destruct s; [reflexivity|]. unfold normalize_key. apply replace_seps. Qed.

(** *** [lstrip] and [rstrip] *)

Lemma rstrip_nil_iff s : rstrip s = [] <-> has_visible s = false.
Proof.
  induction s as [|c r IH]; [easy|]. cbn.
  destruct (rstrip r) eqn:E.
  - destruct (isspace c); cbn; [apply IH | easy].
  - split; [easy|]. intros H. apply orb_false_iff in H as [_ H].
    apply IH in H. discriminate.
Qed.

Lemma rstrip_cons c r :
  rstrip (c :: r) = if has_visible (c :: r) then c :: rstrip r else [].
Proof.
  change (has_visible (c :: r)) with (negb (isspace c) || has_visible r).
  cbn [rstrip]. destruct (rstrip r) eqn:E.
  - apply rstrip_nil_iff in E. rewrite E, orb_false_r. now destruct (isspace c).
  - assert (has_visible r = true) as ->.
    { destruct (has_visible r) eqn:F; [easy|]. apply rstrip_nil_iff in F. congruence. }
    now rewrite orb_true_r.
Qed.

Lemma lstrip_has_visible s : has_visible (lstrip s) = has_visible s.
Proof.
  induction s as [|c r IH]; [easy|]. cbn.
  destruct (isspace c) eqn:E; cbn; [exact IH | now rewrite E].
Qed.

Lemma has_visible_app a b : has_visible (a ++ b) = has_visible a || has_visible b.
Proof. apply existsb_app. Qed.

Lemma rstrip_snoc l x : rstrip (l ++ [x]) = if isspace x then rstrip l else l ++ [x].
Proof.
  induction l as [|c l IH].
  - cbn. now destruct (isspace x).
  - rewrite <- app_comm_cons, !rstrip_cons, IH.
    change (has_visible (c :: l ++ [x])) with (has_visible ((c :: l) ++ [x])).
    rewrite has_visible_app. cbn [has_visible existsb].
    destruct (isspace x); cbn [negb]; rewrite ?orb_false_r, ?orb_true_r; reflexivity.
Qed.

Lemma rstrip_last_visible s c : last (rstrip s) = Some c -> isspace c = false.
Proof.
  induction s as [|x l IH] using rev_ind; [easy|].
  rewrite rstrip_snoc. destruct (isspace x) eqn:E; [exact IH|].
  rewrite last_snoc. now intros [= <-].
Qed.

Lemma rstrip_id s : (forall c, last s = Some c -> isspace c = false) -> rstrip s = s.
Proof.
  destruct s as [|x l _] using rev_ind; [easy|].
  intros H. rewrite rstrip_snoc, (H x); [reflexivity | apply last_snoc].
Qed.

Lemma rstrip_head s c : head (rstrip s) = Some c -> head s = Some c.
Proof.
  destruct s as [|a t]; [easy|]. rewrite rstrip_cons.
  now destruct (has_visible (a :: t)).
Qed.

Lemma lstrip_head_visible s c : head (lstrip s) = Some c -> isspace c = false.
Proof.
  induction s as [|a t IH]; [easy|]. cbn.
  destruct (isspace a) eqn:E; [exact IH | cbn; congruence].
Qed.

Lemma lstrip_id s : (forall c, head s = Some c -> isspace c = false) -> lstrip s = s.
Proof. destruct s as [|a t]; [easy|]. intros H. cbn. now rewrite (H a). Qed.

Lemma strip_head_visible s c : head (strip s) = Some c -> isspace c = false.
Proof. intros H. apply rstrip_head in H. now apply lstrip_head_visible in H. Qed.

Lemma strip_last_visible s c : last (strip s) = Some c -> isspace c = false.
Proof. apply rstrip_last_visible. Qed.

Lemma strip_id s :
  (forall c, head s = Some c -> isspace c = false) ->
  (forall c, last s = Some c -> isspace c = false) -> strip s = s.
Proof. intros Hh Hl. unfold strip. rewrite lstrip_id by exact Hh. now apply rstrip_id. Qed.

Lemma strip_idem s : strip (strip s) = strip s.
Proof. apply strip_id; [apply strip_head_visible | apply strip_last_visible]. Qed.

Lemma head_map {A B} (f : A -> B) (l : list A) : head (map f l) = f <$> head l.
Proof. now destruct l. Qed.

Lemma last_map {A B} (f : A -> B) (l : list A) : last (map f l) = f <$> last l.
Proof.
  induction l as [|x l _] using rev_ind; [easy|].
  rewrite map_app. cbn [map]. now rewrite !last_snoc.
Qed.

(** [strip] commutes with a character map that keeps whitespace apart. *)
Lemma lstrip_map f s : (forall c, isspace (f c) = isspace c) ->
  lstrip (map f s) = map f (lstrip s).
Proof.
  intros Hf. induction s as [|c r IH]; [reflexivity|]. cbn.
  rewrite Hf. now destruct (isspace c).
Qed.

Lemma has_visible_map f s : (forall c, isspace (f c) = isspace c) ->
  has_visible (map f s) = has_visible s.
Proof.
  intros Hf. unfold has_visible. induction s as [|c r IH]; [reflexivity|].
  cbn. now rewrite Hf, IH.
Qed.

Lemma rstrip_map f s : (forall c, isspace (f c) = isspace c) ->
  rstrip (map f s) = map f (rstrip s).
Proof.
  intros Hf. induction s as [|c r IH]; [reflexivity|].
  change (map f (c :: r)) with (f c :: map f r).
  rewrite !rstrip_cons. change (f c :: map f r) with (map f (c :: r)).
  rewrite has_visible_map by exact Hf.
  destruct (has_visible (c :: r)); [|reflexivity]. cbn. now rewrite IH.
Qed.

Lemma strip_map f s : (forall c, isspace (f c) = isspace c) ->
  strip (map f s) = map f (strip s).
Proof. intros Hf. unfold strip. now rewrite lstrip_map, rstrip_map. Qed.

Lemma strip_lower s : strip (lower s) = lower (strip s).
Proof. apply strip_map, isspace_lower. Qed.

(** Related strings are trimmed in step. *)
Lemma lstrip_same_sep s t :
  Forall2 same_sep s t -> Forall2 same_sep (lstrip s) (lstrip t).
Proof.
  induction 1 as [|c d s t Hcd Hst IH]; [constructor|]. cbn.
  rewrite <- (same_sep_isspace _ _ Hcd). destruct (isspace c); [exact IH|].
  now constructor.
Qed.

Lemma has_visible_same_sep s t : Forall2 same_sep s t -> has_visible s = has_visible t.
Proof.
  unfold has_visible. induction 1 as [|c d s t Hcd Hst IH]; [reflexivity|]. cbn.
  now rewrite (same_sep_isspace _ _ Hcd), IH.
Qed.

Lemma rstrip_same_sep s t :
  Forall2 same_sep s t -> Forall2 same_sep (rstrip s) (rstrip t).
Proof.
  induction 1 as [|c d s t Hcd Hst IH]; [constructor|].
  rewrite !rstrip_cons.
  rewrite (has_visible_same_sep (c :: s) (d :: t)) by now constructor.
  destruct (has_visible (d :: t)); now constructor.
Qed.

Lemma map_same_sep s t :
  Forall2 same_sep s t -> map sep_to_space s = map sep_to_space t.
Proof.
  induction 1 as [|c d s t Hcd Hst IH]; [reflexivity|]. cbn.
  now rewrite (same_sep_to_space _ _ Hcd), IH.
Qed.

Lemma lower_same_sep s t : Forall2 same_sep s t -> Forall2 same_sep (lower s) (lower t).
Proof.
  induction 1; cbn; constructor; [now apply same_sep_lower | assumption].
Qed.

(** In general a second normalisation only trims the first one's result. *)
Lemma normalize_key_twice s : normalize_key (normalize_key s) = strip (normalize_key s).
Proof.
  rewrite !normalize_key_eq.
  assert (lower (map sep_to_space (strip (lower s))) = map sep_to_space (strip (lower s))) as ->.
  { rewrite strip_lower. unfold lower. rewrite !map_map. apply map_ext.
    intros c. apply lower_sep_to_space. }
  set (r := map sep_to_space (strip (lower s))).
  assert (Forall (fun c => is_sep c = false) r) as Hr.
  { unfold r. generalize (strip (lower s)). intros l.
    induction l as [|y l IH]; constructor; [|exact IH].
    destruct y as [[] [] [] [] [] [] [] []]; reflexivity. }
  assert (forall l, Forall (fun c => is_sep c = false) l -> map sep_to_space l = l) as Hid.
  { induction 1 as [|x l Hx Hl IH]; [reflexivity|]. cbn. unfold sep_to_space at 1.
    now rewrite Hx, IH. }
  apply Hid.
  assert (forall l, Forall (fun c => is_sep c = false) l ->
                    Forall (fun c => is_sep c = false) (lstrip l)) as Hl.
  { induction 1 as [|x l Hx Hl IH]; [constructor|]. cbn. destruct (isspace x); auto. }
  assert (forall l, Forall (fun c => is_sep c = false) l ->
                    Forall (fun c => is_sep c = false) (rstrip l)) as Hrs.
  { induction 1 as [|x l Hx Hl' IH]; [constructor|]. rewrite rstrip_cons.
    destruct (has_visible (x :: l)); auto. }
  unfold strip. auto.
Qed.

End Strings.

(** * The name normaliser *)

Section Normalizer.

Lemma lstrip_app a r : has_visible a = true -> lstrip (a ++ r) = lstrip a ++ r.
Proof.
  induction a as [|c a IH]; [easy|]. cbn.
  destruct (isspace c); cbn; [exact IH | reflexivity].
Qed.

Lemma rstrip_app l b : has_visible b = true -> rstrip (l ++ b) = l ++ rstrip b.
Proof.
  intros Hb. induction l as [|c l IH]; [reflexivity|].
  rewrite <- app_comm_cons, rstrip_cons, IH.
  change (has_visible (c :: l ++ b)) with (has_visible ((c :: l) ++ b)).
  now rewrite has_visible_app, Hb, orb_true_r.
Qed.

Lemma strip_around a x b :
  has_visible a = true -> has_visible b = true ->
  strip (a ++ x :: b) = lstrip a ++ x :: rstrip b.
Proof.
  intros Ha Hb.
  assert (has_visible (x :: b) = true) as Hxb.
  { change (negb (isspace x) || has_visible b = true). now rewrite Hb, orb_true_r. }
  unfold strip. rewrite lstrip_app by exact Ha.
  rewrite rstrip_app by exact Hxb. now rewrite rstrip_cons, Hxb.
Qed.

Lemma normalize_key_same_sep s t :
  Forall2 same_sep s t -> normalize_key s = normalize_key t.
Proof.
  intros H. rewrite !normalize_key_eq. apply map_same_sep.
  apply rstrip_same_sep, lstrip_same_sep, lower_same_sep, H.
Qed.

Lemma normalize_key_inner_sep a x b :
  is_sep x = true -> has_visible a = true -> has_visible b = true ->
  normalize_key (a ++ x :: b) = normalize_key (a ++ " "%char :: b).
Proof.
  intros Hx Ha Hb. rewrite !normalize_key_eq. unfold lower.
  rewrite !map_app. cbn [map].
  rewrite !strip_around by (rewrite has_visible_map; auto using isspace_lower).
  rewrite !map_app. cbn [map]. do 2 f_equal.
  unfold sep_to_space. rewrite is_sep_lower, Hx. reflexivity.
Qed.

Lemma normalize_key_clean s :
  sep_at_edge s = false -> normalize_key (normalize_key s) = normalize_key s.
Proof.
  intros H. rewrite normalize_key_twice, normalize_key_eq, strip_lower.
  unfold lower. rewrite map_map. unfold sep_at_edge in H.
  apply strip_id; intros c; rewrite ?head_map, ?last_map; intros Hc.
  - destruct (head (strip s)) as [a|] eqn:Ea; [|discriminate].
    cbn in Hc. injection Hc as <-.
    rewrite isspace_sep_to_space, isspace_lower, is_sep_lower.
    rewrite (strip_head_visible _ _ Ea). cbn.
    destruct (last (strip s)) as [b|] eqn:Eb.
    + now apply orb_false_iff in H as [-> _].
    + apply last_None in Eb. rewrite Eb in Ea. discriminate.
  - destruct (last (strip s)) as [b|] eqn:Eb; [|discriminate].
    cbn in Hc. injection Hc as <-.
    rewrite isspace_sep_to_space, isspace_lower, is_sep_lower.
    rewrite (strip_last_visible _ _ Eb). cbn.
    destruct (head (strip s)) as [a|] eqn:Ea.
    + now apply orb_false_iff in H as [_ ->].
    + apply head_None in Ea. rewrite Ea in Eb. discriminate.
Qed.

(** C2, as the code has it.  Normalisation is idempotent on every name that,
    once trimmed, neither begins nor ends with a hyphen or underscore; it does
    not see the case of letters; it does not tell a hyphen from an underscore
    anywhere, nor either of them from a space between two visible parts of
    the name; and "3D Gaussian Splatting" and "3d-gaussian_splatting" have the
    same key. *)
Theorem normalize_key_idempotent_insensitive :
  (forall s, sep_at_edge s = false ->
             normalize_key (normalize_key s) = normalize_key s) /\
  (forall s t, lower s = lower t -> normalize_key s = normalize_key t) /\
  (forall s, normalize_key (map upper_ascii_char s) = normalize_key s) /\
  (forall s t, Forall2 same_sep s t -> normalize_key s = normalize_key t) /\
  (forall a x b, is_sep x = true -> has_visible a = true -> has_visible b = true ->
                 normalize_key (a ++ x :: b) = normalize_key (a ++ " "%char :: b)) /\
  normalize_key (lit "3D Gaussian Splatting") = normalize_key (lit "3d-gaussian_splatting").
Proof.
  split; [exact normalize_key_clean|].
  split; [intros s t E; rewrite !normalize_key_eq; now rewrite E|].
  split.
  { intros s. rewrite !normalize_key_eq. do 2 f_equal. unfold lower.
    rewrite map_map. apply map_ext, lower_char_upper. }
  split; [exact normalize_key_same_sep|].
  split; [exact normalize_key_inner_sep|].
  vm_compute. reflexivity.
Qed.

Lemma normalize_key_idempotent_insensitive_witness :
  sep_at_edge (lit " 3D-Gaussian_Splatting ") = false /\
  normalize_key (normalize_key (lit " 3D-Gaussian_Splatting "))
  = normalize_key (lit " 3D-Gaussian_Splatting ").
Proof.
  split; [vm_compute; reflexivity|].
  apply (proj1 normalize_key_idempotent_insensitive). vm_compute. reflexivity.
Defined.

(** C2 as stated fails: a leading hyphen becomes a leading space, which only
    a second normalisation trims. *)
Lemma normalize_key_not_idempotent :
  normalize_key (normalize_key (lit "-a")) <> normalize_key (lit "-a").
Proof. vm_compute. discriminate. Qed.

End Normalizer.

(** * The document truncation and the prompt *)

Section Truncation.

Lemma len_app (a b : str) : len (a ++ b) = len a + len b.
Proof. unfold len. rewrite length_app. lia. Qed.

Lemma len_separator : len separator = 43.
Proof. reflexivity. Qed.

Lemma len_slice_to n (s : str) : 0 <= n <= len s -> len (slice_to n s) = n.
Proof. unfold len, slice_to. intros H. rewrite length_take. lia. Qed.

Lemma len_slice_last n (s : str) : 0 <= n <= len s -> len (slice_last n s) = n.
Proof. unfold slice_last, len. intros H. rewrite length_drop. lia. Qed.

(** A long text splits into the head, a middle part and the tail. *)
Lemma head_middle_tail n k (s : str) :
  0 <= n -> 0 <= k -> n + k <= len s ->
  exists middle, s = slice_to n s ++ middle ++ slice_last k s.
Proof.
  intros Hn Hk H. unfold slice_to, slice_last, len in *.
  exists (take (Z.to_nat (Z.of_nat (length s) - k - n)) (drop (Z.to_nat n) s)).
  rewrite <- (take_drop (Z.to_nat n) s) at 1. f_equal.
  rewrite <- (take_drop (Z.to_nat (Z.of_nat (length s) - k - n)) (drop (Z.to_nat n) s)) at 1.
  f_equal. rewrite drop_drop. f_equal. lia.
Qed.

Lemma truncate_long text :
  40000 < len text ->
  truncate text = slice_to 35000 text ++ separator ++ slice_last 5000 text.
Proof.
  intros H. unfold truncate. destruct (Z.leb_spec (len text) 40000); [lia | reflexivity].
Qed.

(** C7.  A text within the limit of 40000 characters is returned unchanged; a
    longer one is cut into its first 40000 - 5000 characters, a middle part
    and its last 5000 characters, and the result is the first part, the
    separator and the last part.  For 100000 characters the result has at
    most 40000 characters plus the separator. *)
Theorem truncate_head_separator_tail (text : str) :
  (len text <= 40000 -> truncate text = text) /\
  (40000 < len text ->
     exists head middle tail,
       text = head ++ middle ++ tail /\
       len head = 40000 - 5000 /\ len tail = 5000 /\
       truncate text = head ++ separator ++ tail) /\
  (len text = 100000 ->
     len (truncate text) <= 40000 + len separator /\
     truncate text = slice_to 35000 text ++ separator ++ slice_last 5000 text /\
     len (slice_to 35000 text) = 35000 /\ len (slice_last 5000 text) = 5000 /\
     exists middle, text = slice_to 35000 text ++ middle ++ slice_last 5000 text).
Proof.
  split; [|split].
  - intros H. unfold truncate. destruct (Z.leb_spec (len text) 40000); [reflexivity | lia].
  - intros H. destruct (head_middle_tail 35000 5000 text) as [middle E]; try lia.
    exists (slice_to 35000 text), middle, (slice_last 5000 text).
    rewrite len_slice_to, len_slice_last by lia.
    repeat split; [exact E | now apply truncate_long].
  - intros H. rewrite truncate_long by lia.
    rewrite !len_app, len_slice_to, len_slice_last by lia.
    repeat split; try lia.
    apply head_middle_tail; lia.
Qed.

Lemma truncate_head_separator_tail_witness :
  let text := repeat "a"%char (Z.to_nat 100000) in
  len text = 100000 /\ len (truncate text) <= 40000 + len separator /\
  truncate (lit "short") = lit "short".
Proof.
  intros text.
  assert (len text = 100000) as H by (vm_compute; reflexivity).
  split; [exact H|]. split.
  - apply (proj2 (proj2 (truncate_head_separator_tail text)) H).
  - apply (proj1 (truncate_head_separator_tail (lit "short"))). vm_compute. discriminate.
Defined.

(** C10.  [extract_graph] puts the first 40000 characters of its text into
    the prompt.  A text that was cut has 40043 characters, so the prompt
    holds the head, the separator and the first 4957 characters of the tail:
    the last 43 characters of the document do not reach the collaborator. *)
Theorem prompt_loses_end_of_tail llm (text paper_title : str) (w : world) :
  40000 < len text ->
  let p := {| prompt_title := paper_title;
              prompt_text := slice_to 35000 text ++ separator
                             ++ slice_to 4957 (slice_last 5000 text) |} in
  len (truncate text) = 40043 /\
  extract_graph llm (truncate text) paper_title w
  = ({| db := db w; out := out w ++ [PrintAnalyzing paper_title; InvokeLlm p] |}, llm p) /\
  truncate text = prompt_text p ++ slice_last 43 text /\
  len (prompt_text p) = 40000 /\ len (slice_last 43 text) = 43.
Proof.
  intros H p. subst p. cbn [prompt_text].
  assert (len (slice_to 35000 text) = 35000) as Hh by (apply len_slice_to; lia).
  assert (len (slice_last 5000 text) = 5000) as Ht by (apply len_slice_last; lia).
  assert (slice_to 40000 (truncate text)
          = slice_to 35000 text ++ separator ++ slice_to 4957 (slice_last 5000 text)) as Hp.
  { rewrite truncate_long by exact H. unfold slice_to in *. unfold len in Hh, Ht.
    rewrite take_app_ge by lia. f_equal.
    rewrite take_app_ge by (change (length separator) with 43%nat; lia). f_equal.
    f_equal. change (length separator) with 43%nat. lia. }
  split; [|split; [|split; [|split]]].
  - rewrite truncate_long by exact H. rewrite !len_app, Hh, Ht, len_separator. lia.
  - unfold extract_graph, bind, print, ret, raise. cbn [db out]. rewrite Hp.
    rewrite <- app_assoc. cbn [app].
    match goal with |- context [llm ?q] => destruct (llm q) end; reflexivity.
  - rewrite truncate_long by exact H.
    rewrite <- !app_assoc. do 2 f_equal.
    rewrite <- (take_drop (Z.to_nat 4957) (slice_last 5000 text)) at 1.
    unfold slice_to. f_equal. unfold slice_last, len in *. rewrite drop_drop. f_equal. lia.
  - rewrite !len_app, Hh, len_separator, len_slice_to; lia.
  - apply len_slice_last. lia.
Qed.

Lemma prompt_loses_end_of_tail_witness :
  let text := repeat "a"%char (Z.to_nat 50000) in
  40000 < len text /\ len (truncate text) = 40043.
Proof.
  intros text.
  assert (40000 < len text) as H by (vm_compute; reflexivity).
  split; [exact H|].
  apply (proj1 (prompt_loses_end_of_tail (fun _ => Raise LlmError) text [] 
                  {| db := reset_database; out := [] |} H)).
Defined.

End Truncation.

(** * The graph store *)

Section Store.

Lemma filter_ext_length {A} (f g : A -> bool) l :
  (forall x, In x l -> f x = g x) -> length (List.filter f l) = length (List.filter g l).
Proof.
  induction l as [|a l IH]; [reflexivity|]. intros H. cbn.
  rewrite (H a) by now left. destruct (g a); cbn; rewrite IH; auto.
  all: intros x Hx; apply H; now right.
Qed.

Lemma existsb_pointwise {A} (f g : A -> bool) l :
  (forall x, f x = g x) -> existsb f l = existsb g l.
Proof. intros H. induction l as [|a l IH]; cbn; [reflexivity|]. now rewrite H, IH. Qed.

Lemma filter_length_pos {A} (f : A -> bool) l x :
  In x l -> f x = true -> (1 <= length (List.filter f l))%nat.
Proof.
  intros Hin Hf. assert (In x (List.filter f l)) as H by (apply filter_In; auto).
  destruct (List.filter f l); [destruct H | cbn; lia].
Qed.

Lemma filter_length_zero {A} (f : A -> bool) l :
  length (List.filter f l) = 0%nat <-> forall x, In x l -> f x = false.
Proof.
  induction l as [|a l IH]; cbn; [easy|].
  destruct (f a) eqn:E; cbn.
  - split; [lia|]. intros H. specialize (H a (or_introl eq_refl)). congruence.
  - rewrite IH. split; [intros H x [<-|Hx]; auto | auto].
Qed.

Lemma node_matches_iff nm ty r :
  node_matches nm ty r = true <-> node_name r = nm /\ node_type r = ty.
Proof.
  unfold node_matches. rewrite andb_true_iff, !bool_decide_eq_true. reflexivity.
Qed.

Lemma edge_matches_iff src tgt ty r :
  edge_matches src tgt ty r = true
  <-> edge_source_id r = src /\ edge_target_id r = tgt /\ edge_type r = ty.
Proof.
  unfold edge_matches. rewrite !andb_true_iff, !bool_decide_eq_true. tauto.
Qed.

Lemma schema_valid_Valid s : schema_valid s = true -> Valid s.
Proof.
  unfold schema_valid. rewrite !andb_true_iff, !forallb_forall.
  intros [[[H1 H2] H3] H4]. split.
  - intros r Hr. apply Nat.ltb_lt. auto.
  - intros e He. apply Nat.ltb_lt. auto.
  - intros nm ty. destruct (count_nodes nm ty s) as [|n] eqn:E; [lia|].
    assert (exists r, In r (tbl_nodes s) /\ node_matches nm ty r = true) as (r & Hr & Hm).
    { unfold count_nodes in E. destruct (List.filter _ _) as [|r l] eqn:F; [discriminate|].
      exists r. apply filter_In. rewrite F. now left. }
    apply node_matches_iff in Hm as [<- <-]. rewrite <- E.
    apply Nat.leb_le. auto.
  - intros e He. apply andb_true_iff. auto.
Qed.

Lemma edges_unique_Distinct s : edges_unique s = true -> Distinct s.
Proof.
  unfold edges_unique. rewrite forallb_forall. intros H src tgt ty.
  destruct (count_edges src tgt ty s) as [|n] eqn:E; [lia|].
  assert (exists r, In r (tbl_edges s) /\ edge_matches src tgt ty r = true) as (r & Hr & Hm).
  { unfold count_edges in E. destruct (List.filter _ _) as [|r l] eqn:F; [discriminate|].
    exists r. apply filter_In. rewrite F. now left. }
  apply edge_matches_iff in Hm as (<- & <- & <-). rewrite <- E.
  apply Nat.leb_le. auto.
Qed.

Lemma Valid_reset : Valid reset_database.
Proof. split; cbn; intros; try contradiction. unfold count_nodes. cbn. lia. Qed.

(** *** The two SELECT statements *)

Lemma select_node_id_Some nm ty s i :
  select_node_id nm ty s = Some i ->
  exists r, In r (tbl_nodes s) /\ node_id r = i /\ node_name r = nm /\ node_type r = ty.
Proof.
  unfold select_node_id. destruct (List.find _ _) as [r|] eqn:E; [|discriminate].
  intros [= <-]. apply find_some in E as [Hin Hm].
  apply (node_matches_iff nm ty r) in Hm. eauto.
Qed.

Lemma select_node_id_None nm ty s :
  select_node_id nm ty s = None <-> count_nodes nm ty s = 0%nat.
Proof.
  unfold select_node_id, count_nodes. rewrite filter_length_zero. split.
  - destruct (List.find _ _) eqn:E; [discriminate|]. intros _ x Hx.
    exact (find_none _ _ E x Hx).
  - intros H. destruct (List.find _ _) as [r|] eqn:E; [|reflexivity].
    apply find_some in E as [Hin Hm]. change (node_matches nm ty r = true) in Hm.
    rewrite (H r Hin) in Hm. discriminate.
Qed.

Lemma select_edge_id_None src tgt ty s :
  select_edge_id src tgt ty s = None <-> count_edges src tgt ty s = 0%nat.
Proof.
  unfold select_edge_id, count_edges. rewrite filter_length_zero. split.
  - destruct (List.find _ _) eqn:E; [discriminate|]. intros _ x Hx.
    exact (find_none _ _ E x Hx).
  - intros H. destruct (List.find _ _) as [r|] eqn:E; [|reflexivity].
    apply find_some in E as [Hin Hm]. change (edge_matches src tgt ty r = true) in Hm.
    rewrite (H r Hin) in Hm. discriminate.
Qed.

Lemma node_exists_iff i s :
  node_exists i s = true <-> exists r, In r (tbl_nodes s) /\ node_id r = i.
Proof.
  unfold node_exists. rewrite existsb_exists.
  split; intros (r & Hr & H); exists r; split; auto.
  - now apply bool_decide_eq_true in H.
  - now apply bool_decide_eq_true.
Qed.

(** *** What the constraints of the two tables amount to *)

Lemma unique_violation_nodes rows r :
  unique_violation nodes_table node_col rows r
  = existsb (fun r' => bool_decide (node_id r = node_id r')) rows
    || existsb (node_matches (node_name r) (node_type r)) rows.
Proof.
  unfold unique_violation. cbn [unique_keys nodes_table table_columns table_unique
    List.filter col_primary_key map col_name app existsb].
  rewrite orb_false_r. f_equal; apply existsb_pointwise; intros r'.
  - unfold collide, node_col. cbn. rewrite andb_true_r.
    destruct (decide (node_id r = node_id r')) as [E|E].
    + rewrite !bool_decide_eq_true_2; congruence.
    + rewrite !bool_decide_eq_false_2; congruence.
  - unfold collide, node_col, node_matches. cbn. rewrite andb_true_r.
    f_equal; apply bool_decide_ext; split; congruence.
Qed.

Lemma unique_violation_edges rows r :
  unique_violation edges_table edge_col rows r
  = existsb (fun r' => bool_decide (edge_id r = edge_id r')) rows.
Proof.
  unfold unique_violation. cbn [unique_keys edges_table table_columns table_unique
    List.filter col_primary_key map col_name app existsb].
  rewrite orb_false_r. apply existsb_pointwise; intros r'.
  unfold collide, edge_col. cbn. rewrite andb_true_r.
  destruct (decide (edge_id r = edge_id r')) as [E|E].
  - rewrite !bool_decide_eq_true_2; congruence.
  - rewrite !bool_decide_eq_false_2; congruence.
Qed.

(** *** Inserting rows *)

Lemma count_nodes_add s nm ty props nm' ty' :
  count_nodes nm' ty' (add_node s nm ty props)
  = (count_nodes nm' ty' s
     + if bool_decide (nm = nm') && bool_decide (ty = ty') then 1 else 0)%nat.
Proof.
  unfold count_nodes, add_node. cbn [tbl_nodes].
  rewrite List.filter_app, length_app. f_equal. cbn. unfold node_matches. cbn.
  destruct (bool_decide (nm = nm') && bool_decide (ty = ty')); reflexivity.
Qed.

Lemma count_edges_add s src tgt ty ctx src' tgt' ty' :
  count_edges src' tgt' ty' (add_edge s src tgt ty ctx)
  = (count_edges src' tgt' ty' s
     + if bool_decide (src = src') && bool_decide (tgt = tgt') && bool_decide (ty = ty')
       then 1 else 0)%nat.
Proof.
  unfold count_edges, add_edge. cbn [tbl_edges].
  rewrite List.filter_app, length_app. f_equal. cbn. unfold edge_matches. cbn.
  destruct (bool_decide (src = src') && bool_decide (tgt = tgt') && bool_decide (ty = ty'));
    reflexivity.
Qed.

Lemma node_exists_grows s s' i : grows s s' -> node_exists i s = true -> node_exists i s' = true.
Proof.
  intros [[extra E] _]. rewrite !node_exists_iff. intros (r & Hr & Hi).
  exists r. split; [|exact Hi]. rewrite E. apply in_app_iff. now left.
Qed.

Lemma grows_refl s : grows s s.
Proof. repeat split; try (exists []; now rewrite app_nil_r). lia. Qed.

Lemma grows_trans s1 s2 s3 : grows s1 s2 -> grows s2 s3 -> grows s1 s3.
Proof.
  intros ([a Ea] & [b Eb] & H1) ([c Ec] & [d Ed] & H2). repeat split.
  - exists (a ++ c). now rewrite Ec, Ea, app_assoc.
  - exists (b ++ d). now rewrite Ed, Eb, app_assoc.
  - lia.
Qed.

Lemma grows_add_node s nm ty props : grows s (add_node s nm ty props).
Proof. repeat split; cbn; eauto. exists []. now rewrite app_nil_r. Qed.

Lemma grows_add_edge s src tgt ty ctx : grows s (add_edge s src tgt ty ctx).
Proof. repeat split; cbn; eauto. exists []. now rewrite app_nil_r. Qed.

Lemma Valid_add_node s nm ty props :
  Valid s -> count_nodes nm ty s = 0%nat -> Valid (add_node s nm ty props).
Proof.
  intros [H1 H2 H3 H4] H0. split.
  - cbn. intros r Hr. apply in_app_iff in Hr as [Hr | [<- | []]]; cbn; [|lia].
    specialize (H1 r Hr). lia.
  - cbn. intros e He. specialize (H2 e He). lia.
  - intros nm' ty'. rewrite count_nodes_add.
    destruct (bool_decide (nm = nm') && bool_decide (ty = ty')) eqn:E.
    + apply andb_true_iff in E as [E1 E2].
      apply bool_decide_eq_true in E1, E2. subst. lia.
    + specialize (H3 nm' ty'). lia.
  - intros e He. destruct (H4 e He) as [Ha Hb].
    split; eapply node_exists_grows; eauto using grows_add_node.
Qed.

Lemma Valid_add_edge s src tgt ty ctx :
  Valid s -> node_exists src s = true -> node_exists tgt s = true ->
  Valid (add_edge s src tgt ty ctx).
Proof.
  intros [H1 H2 H3 H4] Hs Ht. split.
  - cbn. intros r Hr. specialize (H1 r Hr). lia.
  - cbn. intros e He. apply in_app_iff in He as [He | [<- | []]]; cbn; [|lia].
    specialize (H2 e He). lia.
  - exact H3.
  - cbn [add_edge tbl_edges]. intros e He.
    change (node_exists ?i (add_edge s src tgt ty ctx)) with (node_exists i s).
    apply in_app_iff in He as [He | [<- | []]]; cbn; auto.
Qed.

Lemma Distinct_add_edge s src tgt ty ctx :
  Distinct s -> count_edges src tgt ty s = 0%nat -> Distinct (add_edge s src tgt ty ctx).
Proof.
  intros H H0 src' tgt' ty'. rewrite count_edges_add.
  destruct (bool_decide (src = src') && bool_decide (tgt = tgt') && bool_decide (ty = ty')) eqn:E.
  - apply andb_true_iff in E as [E E3]. apply andb_true_iff in E as [E1 E2].
    apply bool_decide_eq_true in E1, E2, E3. subst. lia.
  - specialize (H src' tgt' ty'). lia.
Qed.

Lemma insert_node_fresh nm ty props w :
  Valid (db w) -> count_nodes nm ty (db w) = 0%nat ->
  insert_node nm ty props w
  = (with_db w (add_node (db w) nm ty props), Ok (uuid_supply (db w))).
Proof.
  intros HV H0. unfold insert_node. rewrite unique_violation_nodes.
  cbn [node_id node_name node_type].
  assert (existsb (fun r' => bool_decide (uuid_supply (db w) = node_id r')) (tbl_nodes (db w))
          = false) as ->.
  { apply not_true_is_false. intros H. apply existsb_exists in H as (r & Hr & E).
    apply bool_decide_eq_true in E. pose proof (valid_node_ids _ HV r Hr). lia. }
  assert (existsb (node_matches nm ty) (tbl_nodes (db w)) = false) as ->.
  { apply not_true_is_false. intros H. apply existsb_exists in H as (r & Hr & E).
    unfold count_nodes in H0. rewrite filter_length_zero in H0.
    rewrite (H0 r Hr) in E. discriminate. }
  reflexivity.
Qed.

Lemma insert_node_duplicate nm ty props w :
  count_nodes nm ty (db w) <> 0%nat ->
  insert_node nm ty props w = (w, Raise (IntegrityError UniqueViolation)).
Proof.
  intros H. unfold insert_node. rewrite unique_violation_nodes.
  cbn [node_id node_name node_type].
  assert (existsb (node_matches nm ty) (tbl_nodes (db w)) = true) as ->.
  { destruct (existsb _ _) eqn:E; [reflexivity|]. exfalso. apply H.
    unfold count_nodes. apply filter_length_zero. intros x Hx.
    destruct (node_matches nm ty x) eqn:F; [|reflexivity].
    assert (existsb (node_matches nm ty) (tbl_nodes (db w)) = true) as G
      by (apply existsb_exists; eauto). congruence. }
  now rewrite orb_true_r.
Qed.

Lemma insert_edge_fresh src tgt ty ctx w :
  Valid (db w) -> node_exists src (db w) = true -> node_exists tgt (db w) = true ->
  insert_edge src tgt ty ctx w = (with_db w (add_edge (db w) src tgt ty ctx), Ok tt).
Proof.
  intros HV Hs Ht. unfold insert_edge. rewrite Hs, Ht. cbn [andb negb].
  rewrite unique_violation_edges. cbn [edge_id].
  assert (existsb (fun r' => bool_decide (uuid_supply (db w) = edge_id r')) (tbl_edges (db w))
          = false) as ->.
  { apply not_true_is_false. intros H. apply existsb_exists in H as (r & Hr & E).
    apply bool_decide_eq_true in E. pose proof (valid_edge_ids _ HV r Hr). lia. }
  reflexivity.
Qed.

(** *** [get_or_create_node] and [create_edge] *)

Lemma get_or_create_node_found node paper_source w i :
  select_node_id (name node) (type node) (db w) = Some i ->
  get_or_create_node node paper_source w = (w, Ok i).
Proof. intros H. unfold get_or_create_node, bind, get_db, ret. now rewrite H. Qed.

Lemma get_or_create_node_new node paper_source w :
  Valid (db w) ->
  select_node_id (name node) (type node) (db w) = None ->
  get_or_create_node node paper_source w
  = (with_db w (add_node (db w) (name node) (type node)
                         (node_properties_of node paper_source)),
     Ok (uuid_supply (db w))).
Proof.
  intros HV H. unfold get_or_create_node, bind, get_db. rewrite H.
  apply insert_node_fresh; [exact HV|]. now apply select_node_id_None.
Qed.

Lemma select_node_id_add_new s nm ty props :
  select_node_id nm ty s = None ->
  select_node_id nm ty (add_node s nm ty props) = Some (uuid_supply s).
Proof.
  intros H. unfold select_node_id in *. cbn [add_node tbl_nodes].
  destruct (List.find _ (tbl_nodes s)) eqn:E; [discriminate|].
  induction (tbl_nodes s) as [|r l IH]; cbn.
  - rewrite !bool_decide_eq_true_2 by reflexivity. reflexivity.
  - cbn in E. destruct (bool_decide (node_name r = nm) && bool_decide (node_type r = ty));
      [discriminate | auto].
Qed.

Lemma create_edge_found src tgt edge w i :
  select_edge_id src tgt (relation edge) (db w) = Some i ->
  create_edge src tgt edge w = (w, Ok tt).
Proof. intros H. unfold create_edge, bind, get_db, ret. now rewrite H. Qed.

Lemma create_edge_new src tgt edge w :
  Valid (db w) -> node_exists src (db w) = true -> node_exists tgt (db w) = true ->
  select_edge_id src tgt (relation edge) (db w) = None ->
  create_edge src tgt edge w
  = (with_db w (add_edge (db w) src tgt (relation edge) (context edge)), Ok tt).
Proof.
  intros HV Hs Ht H. unfold create_edge, bind, get_db. rewrite H.
  now apply insert_edge_fresh.
Qed.

(** One call of [get_or_create_node], whatever the store holds. *)
Lemma get_or_create_node_spec node paper_source w :
  Valid (db w) ->
  exists i w',
    get_or_create_node node paper_source w = (w', Ok i) /\
    Valid (db w') /\ out w' = out w /\ grows (db w) (db w') /\
    tbl_edges (db w') = tbl_edges (db w) /\
    select_node_id (name node) (type node) (db w') = Some i /\
    count_nodes (name node) (type node) (db w') = 1%nat.
Proof.
  intros HV. destruct (select_node_id (name node) (type node) (db w)) as [i|] eqn:E.
  - exists i, w. rewrite (get_or_create_node_found _ _ _ _ E).
    split_and!; auto using grows_refl.
    pose proof (valid_pairs _ HV (name node) (type node)).
    destruct (count_nodes (name node) (type node) (db w)) eqn:F; [|lia].
    apply select_node_id_None in F. congruence.
  - eexists _, _. rewrite (get_or_create_node_new _ _ _ HV E). split; [reflexivity|].
    pose proof E as E0. apply select_node_id_None in E0.
    cbn [with_db db out]. split_and!; try reflexivity.
    + now apply Valid_add_node.
    + apply grows_add_node.
    + now apply select_node_id_add_new.
    + rewrite count_nodes_add, E0, !bool_decide_eq_true_2 by reflexivity. reflexivity.
Qed.

(** One call of [create_edge] between two stored nodes. *)
Lemma create_edge_spec src tgt edge w :
  Valid (db w) -> node_exists src (db w) = true -> node_exists tgt (db w) = true ->
  exists w',
    create_edge src tgt edge w = (w', Ok tt) /\
    Valid (db w') /\ out w' = out w /\ grows (db w) (db w') /\
    tbl_nodes (db w') = tbl_nodes (db w) /\
    (length (tbl_edges (db w')) <= S (length (tbl_edges (db w))))%nat /\
    (1 <= count_edges src tgt (relation edge) (db w'))%nat /\
    (Distinct (db w) -> Distinct (db w')).
Proof.
  intros HV Hs Ht.
  destruct (select_edge_id src tgt (relation edge) (db w)) as [i|] eqn:E.
  - exists w. rewrite (create_edge_found _ _ _ _ _ E).
    split_and!; auto using grows_refl.
    destruct (count_edges src tgt (relation edge) (db w)) eqn:F; [|lia].
    apply select_edge_id_None in F. congruence.
  - eexists. rewrite (create_edge_new _ _ _ _ HV Hs Ht E). split; [reflexivity|].
    pose proof E as E0. apply select_edge_id_None in E0.
    cbn [with_db db out]. split_and!; try reflexivity.
    + now apply Valid_add_edge.
    + apply grows_add_edge.
    + cbn. rewrite length_app. cbn. lia.
    + rewrite count_edges_add, E0, !bool_decide_eq_true_2 by reflexivity. cbn. lia.
    + intros HD. now apply Distinct_add_edge.
Qed.

End Store.

(** * Idempotence of the store operations, and the constraints behind it *)

Section Idempotence.

Lemma Valid_schema_valid s : Valid s -> schema_valid s = true.
Proof.
  intros [H1 H2 H3 H4]. unfold schema_valid. rewrite !andb_true_iff, !forallb_forall.
  split_and!.
  - intros r Hr. apply Nat.ltb_lt. auto.
  - intros e He. apply Nat.ltb_lt. auto.
  - intros r _. apply Nat.leb_le. auto.
  - intros e He. apply andb_true_iff. auto.
Qed.

Lemma Distinct_edges_unique s : Distinct s -> edges_unique s = true.
Proof.
  intros H. unfold edges_unique. rewrite forallb_forall. intros e _.
  apply Nat.leb_le. apply H.
Qed.

(** Every store built by the two operations from an empty database satisfies
    the schema and holds no two edges with the same triple. *)
Lemma reachable_invariants s : reachable s -> Valid s /\ Distinct s.
Proof.
  induction 1 as [|node paper w w' i _ [HV HD] Hrun|src tgt edge w w' _ [HV HD] Hrun].
  - split; [apply Valid_reset|]. intros src tgt ty. unfold count_edges. cbn. lia.
  - destruct (get_or_create_node_spec node paper w HV)
      as (i' & w'' & Hrun' & HV' & _ & _ & He & _).
    rewrite Hrun in Hrun'. injection Hrun' as -> _. split; [exact HV'|].
    intros a b c. unfold count_edges. rewrite He. apply HD.
  - unfold create_edge, bind, get_db in Hrun.
    destruct (select_edge_id src tgt (relation edge) (db w)) eqn:E.
    { injection Hrun as <-. auto. }
    destruct (node_exists src (db w)) eqn:Hs; [destruct (node_exists tgt (db w)) eqn:Ht|].
    + rewrite (insert_edge_fresh _ _ _ _ _ HV Hs Ht) in Hrun. injection Hrun as <-.
      cbn [with_db db]. split; [now apply Valid_add_edge|].
      apply Distinct_add_edge; [exact HD|]. now apply select_edge_id_None.
    + unfold insert_edge in Hrun. rewrite Hs, Ht in Hrun. discriminate.
    + unfold insert_edge in Hrun. rewrite Hs in Hrun. discriminate.
Qed.

Lemma reachable_checks s : reachable s -> schema_valid s = true /\ edges_unique s = true.
Proof.
  intros H. apply reachable_invariants in H as [HV HD].
  auto using Valid_schema_valid, Distinct_edges_unique.
Qed.

(** C3, as the schema has it.  The nodes table declares UNIQUE (name, type),
    and the database refuses a second node with a stored pair whatever the
    caller checked.  The edges table declares no uniqueness constraint: the
    database accepts an edge whose (source_id, target_id, type) triple is
    already stored, so edges are kept apart by the lookup of [create_edge]
    alone. *)
Theorem schema_unique_nodes_only :
  has_unique_constraint nodes_table ["name"; "type"]%string = true /\
  table_unique edges_table = [] /\
  (forall nm ty props w,
     count_nodes nm ty (db w) <> 0%nat ->
     insert_node nm ty props w = (w, Raise (IntegrityError UniqueViolation))) /\
  (forall src tgt ty ctx w,
     schema_valid (db w) = true ->
     node_exists src (db w) = true -> node_exists tgt (db w) = true ->
     exists w', insert_edge src tgt ty ctx w = (w', Ok tt) /\
       count_edges src tgt ty (db w') = S (count_edges src tgt ty (db w))).
Proof.
  split; [vm_compute; reflexivity|]. split; [reflexivity|]. split.
  - intros. now apply insert_node_duplicate.
  - intros src tgt ty ctx w HV Hs Ht. apply schema_valid_Valid in HV.
    eexists. rewrite (insert_edge_fresh _ _ _ _ _ HV Hs Ht). split; [reflexivity|].
    cbn [with_db db]. rewrite count_edges_add, !bool_decide_eq_true_2 by reflexivity.
    cbn. lia.
Qed.

Lemma schema_unique_nodes_only_witness :
  let s := add_edge (add_node reset_database (lit "NeRF") (lit "Method") [])
                    1 1 (lit "USES") (lit "first") in
  let w := {| db := s; out := [] |} in
  schema_valid (db w) = true /\ count_edges 1 1 (lit "USES") (db w) = 1%nat /\
  exists w', insert_edge 1 1 (lit "USES") (lit "second") w = (w', Ok tt) /\
    count_edges 1 1 (lit "USES") (db w') = 2%nat.
Proof.
  intros s w. split; [vm_compute; reflexivity|]. split; [vm_compute; reflexivity|].
  destruct (proj2 (proj2 (proj2 schema_unique_nodes_only))
              1%nat 1%nat (lit "USES") (lit "second") w) as (w' & Hrun & Hc);
    try (vm_compute; reflexivity).
  exists w'. split; [exact Hrun|]. rewrite Hc. vm_compute. reflexivity.
Defined.

(** C3 as stated fails: the edges table has no unique constraint on
    (source_id, target_id, type). *)
Lemma edges_table_not_unique :
  ~ (has_unique_constraint nodes_table ["name"; "type"]%string = true /\
     has_unique_constraint edges_table ["source_id"; "target_id"; "type"]%string = true).
Proof. vm_compute. intros [_ H]. discriminate. Qed.

(** C5.  On a store that satisfies the schema, two calls of
    [get_or_create_node] in sequence for the same (name, type) pair return
    the same identifier, the second call leaves the store as the first one
    left it (also when it comes with another description or source paper:
    the first properties stay), and the store then holds exactly one node
    with that pair. *)
Theorem get_or_create_node_idempotent node node' paper_source paper_source' w :
  schema_valid (db w) = true ->
  name node' = name node -> type node' = type node ->
  exists i w1,
    get_or_create_node node paper_source w = (w1, Ok i) /\
    get_or_create_node node' paper_source' w1 = (w1, Ok i) /\
    count_nodes (name node) (type node) (db w1) = 1%nat.
Proof.
  intros HV En Et. apply schema_valid_Valid in HV.
  destruct (get_or_create_node_spec node paper_source w HV)
    as (i & w1 & Hrun & _ & _ & _ & _ & Hsel & Hcount).
  exists i, w1. split; [exact Hrun|]. split; [|exact Hcount].
  apply get_or_create_node_found. now rewrite En, Et.
Qed.

Lemma get_or_create_node_idempotent_witness :
  let node := {| name := lit "NeRF"; type := lit "Method"; description := None |} in
  let w := {| db := reset_database; out := [] |} in
  schema_valid (db w) = true /\
  exists i w1,
    get_or_create_node node (lit "paper") w = (w1, Ok i) /\
    get_or_create_node node (lit "paper") w1 = (w1, Ok i) /\
    count_nodes (name node) (type node) (db w1) = 1%nat.
Proof.
  intros node w. split; [reflexivity|].
  apply (get_or_create_node_idempotent node node (lit "paper") (lit "paper") w);
    reflexivity.
Defined.

(** C6.  On a store that satisfies the schema and holds no two edges with the
    same triple (every store built by the two operations from an empty
    database is such a store, see [reachable_checks]), two calls of
    [create_edge] in sequence for the same (source_id, target_id, relation)
    between stored nodes leave exactly one edge with that triple; the second
    call leaves the store as the first one left it, also when it comes with
    another context. *)
Theorem create_edge_idempotent source_id target_id edge edge' w :
  schema_valid (db w) = true -> edges_unique (db w) = true ->
  node_exists source_id (db w) = true -> node_exists target_id (db w) = true ->
  relation edge' = relation edge ->
  exists w1,
    create_edge source_id target_id edge w = (w1, Ok tt) /\
    create_edge source_id target_id edge' w1 = (w1, Ok tt) /\
    count_edges source_id target_id (relation edge) (db w1) = 1%nat.
Proof.
  intros HV HD Hs Ht Er. apply schema_valid_Valid in HV. apply edges_unique_Distinct in HD.
  destruct (create_edge_spec source_id target_id edge w HV Hs Ht)
    as (w1 & Hrun & _ & _ & _ & _ & _ & Hc & HD1).
  specialize (HD1 HD). pose proof (HD1 source_id target_id (relation edge)) as Hle.
  exists w1. split; [exact Hrun|]. split; [|lia].
  destruct (select_edge_id source_id target_id (relation edge') (db w1)) as [i|] eqn:E.
  - eapply create_edge_found; eauto.
  - rewrite Er in E. apply select_edge_id_None in E. lia.
Qed.

Lemma create_edge_idempotent_witness :
  let s := add_node reset_database (lit "NeRF") (lit "Method") [] in
  let w := {| db := s; out := [] |} in
  let edge := {| source := lit "NeRF"; target := lit "nerf"; relation := lit "USES";
                 context := lit "NeRF uses itself." |} in
  schema_valid (db w) = true /\ edges_unique (db w) = true /\
  exists w1,
    create_edge 1 1 edge w = (w1, Ok tt) /\
    create_edge 1 1 edge w1 = (w1, Ok tt) /\
    count_edges 1 1 (relation edge) (db w1) = 1%nat.
Proof.
  intros s w edge. split; [vm_compute; reflexivity|]. split; [vm_compute; reflexivity|].
  apply (create_edge_idempotent 1%nat 1%nat edge edge w); vm_compute; reflexivity.
Defined.

End Idempotence.

(** * The extraction result consumer *)

Section Consumer.

Lemma count_nodes_grows s s' nm ty :
  grows s s' -> (count_nodes nm ty s <= count_nodes nm ty s')%nat.
Proof.
  intros [[extra E] _]. unfold count_nodes. rewrite E, List.filter_app, length_app. lia.
Qed.

Lemma count_edges_grows s s' src tgt ty :
  grows s s' -> (count_edges src tgt ty s <= count_edges src tgt ty s')%nat.
Proof.
  intros (_ & [extra E] & _). unfold count_edges. rewrite E, List.filter_app, length_app. lia.
Qed.

Lemma in_nodes_grows s s' r : grows s s' -> In r (tbl_nodes s) -> In r (tbl_nodes s').
Proof. intros [[extra E] _] H. rewrite E. apply in_app_iff. now left. Qed.

Lemma node_exists_same_nodes s s' i :
  tbl_nodes s' = tbl_nodes s -> node_exists i s' = node_exists i s.
Proof. intros E. unfold node_exists. now rewrite E. Qed.

(** The first pass: every candidate node is stored, and the map sends the
    key of each one to the identifier of a stored node with that key. *)
Lemma create_nodes_spec (ns : list GraphNode) (paper_title : str) (m : gmap str uuid)
    (w : world) :
  Valid (db w) ->
  (forall k i, m !! k = Some i -> node_exists i (db w) = true) ->
  exists m' w',
    create_nodes ns paper_title m w = (w', Ok m') /\
    Valid (db w') /\ out w' = out w /\ grows (db w) (db w') /\
    tbl_edges (db w') = tbl_edges (db w) /\
    (forall k i, m' !! k = Some i -> node_exists i (db w') = true) /\
    (forall n, In n ns -> count_nodes (name n) (type n) (db w') = 1%nat) /\
    (forall k, is_Some (m' !! k) <-> is_Some (m !! k) \/ In k (node_keys ns)) /\
    (forall k i, m' !! k = Some i ->
       m !! k = Some i \/
       exists r, In r (tbl_nodes (db w')) /\ node_id r = i /\
                 normalize_key (node_name r) = k).
Proof.
  revert m w. induction ns as [|n ns IH]; intros m w HV Hm.
  - exists m, w. cbn. split_and!; auto using grows_refl; try tauto.
  - destruct (get_or_create_node_spec n paper_title w HV)
      as (i & w1 & Hrun & HV1 & Ho1 & Hg1 & He1 & Hsel & Hc1).
    destruct (select_node_id_Some _ _ _ _ Hsel) as (r & Hr & Hri & Hrn & Hrt).
    assert (node_exists i (db w1) = true) as Hi by (apply node_exists_iff; eauto).
    destruct (IH (<[normalize_key (name n) := i]> m) w1 HV1)
      as (m' & w' & Hrun' & HV' & Ho' & Hg' & He' & Hm' & Hc' & Hk' & Hr').
    { intros k j Hk. apply lookup_insert_Some in Hk as [[_ <-] | [_ Hk]]; [exact Hi|].
      eapply node_exists_grows; eauto. }
    exists m', w'. cbn [create_nodes]. unfold bind at 1. rewrite Hrun.
    split; [exact Hrun'|]. split_and!; auto.
    + congruence.
    + eapply grows_trans; eauto.
    + congruence.
    + intros n' [<- | Hn']; [|auto].
      pose proof (count_nodes_grows _ _ (name n) (type n) Hg').
      pose proof (valid_pairs _ HV' (name n) (type n)). lia.
    + intros k. rewrite Hk'. cbn [node_keys map].
      destruct (decide (normalize_key (name n) = k)) as [<- | Hne].
      * rewrite lookup_insert_eq. split; [intros _; right; now left | eauto].
      * rewrite lookup_insert_ne by exact Hne. fold (node_keys ns).
        cbn [In]. tauto.
    + intros k j Hk. destruct (Hr' k j Hk) as [Hk0 | ?]; [|now right].
      apply lookup_insert_Some in Hk0 as [[<- <-] | [_ Hk0]]; [|now left].
      right. exists r. split_and!; [eapply in_nodes_grows; eauto | exact Hri | congruence].
Qed.

(** The second pass: every edge that the map resolves is stored between the
    two identifiers, every other edge is counted. *)
Lemma create_edges_spec (es : list GraphEdge) (m : gmap str uuid) (skipped : Z)
    (w : world) :
  Valid (db w) ->
  (forall k i, m !! k = Some i -> node_exists i (db w) = true) ->
  exists w',
    create_edges es m skipped w
    = (w', Ok (skipped + Z.of_nat (length (List.filter (unresolved m) es)))) /\
    Valid (db w') /\ out w' = out w /\ grows (db w) (db w') /\
    tbl_nodes (db w') = tbl_nodes (db w) /\
    (length (tbl_edges (db w')) + length (List.filter (unresolved m) es)
     <= length (tbl_edges (db w)) + length es)%nat /\
    (forall e si ti, In e es ->
       m !! normalize_key (source e) = Some si ->
       m !! normalize_key (target e) = Some ti ->
       (1 <= count_edges si ti (relation e) (db w'))%nat) /\
    (Distinct (db w) -> Distinct (db w')).
Proof.
  revert skipped w. induction es as [|e es IH]; intros skipped w HV Hm.
  - exists w. cbn. rewrite Z.add_0_r. split_and!; auto using grows_refl; try lia.
  - cbn [create_edges List.filter].
    destruct (m !! normalize_key (source e)) as [si|] eqn:Es;
      [destruct (m !! normalize_key (target e)) as [ti|] eqn:Et|];
      (assert (unresolved m e = match m !! normalize_key (source e),
                                      m !! normalize_key (target e) with
                                | Some _, Some _ => false
                                | _, _ => true
                                end) as Hu by reflexivity);
      rewrite Es, ?Et in Hu; rewrite Hu.
    + destruct (create_edge_spec si ti e w HV (Hm _ _ Es) (Hm _ _ Et))
        as (w1 & Hrun & HV1 & Ho1 & Hg1 & Hn1 & Hl1 & Hc1 & HD1).
      destruct (IH skipped w1 HV1) as (w' & Hrun' & HV' & Ho' & Hg' & Hn' & Hl' & Hc' & HD').
      { intros k i Hk. rewrite (node_exists_same_nodes _ _ _ Hn1). eauto. }
      exists w'. unfold bind at 1. rewrite Hrun. split; [exact Hrun'|].
      split_and!; auto; try congruence.
      * eapply grows_trans; eauto.
      * cbn [length]. lia.
      * intros e' si' ti' [<- | He'] Hs' Ht'; [|eauto].
        assert (si' = si) as -> by congruence. assert (ti' = ti) as -> by congruence.
        pose proof (count_edges_grows _ _ si ti (relation e) Hg'). lia.
    + destruct (IH (skipped + 1) w HV Hm) as (w' & Hrun' & HV' & Ho' & Hg' & Hn' & Hl' & Hc' & HD').
      exists w'. rewrite Hrun'. split; [f_equal; f_equal; cbn [length]; lia|].
      split_and!; auto.
      * cbn [length]. lia.
      * intros e' si' ti' [<- | He'] Hs' Ht'; [congruence | eauto].
    + destruct (IH (skipped + 1) w HV Hm) as (w' & Hrun' & HV' & Ho' & Hg' & Hn' & Hl' & Hc' & HD').
      exists w'. rewrite Hrun'. split; [f_equal; f_equal; cbn [length]; lia|].
      split_and!; auto.
      * cbn [length]. lia.
      * intros e' si' ti' [<- | He'] Hs' Ht'; [congruence | eauto].
Qed.

Lemma unresolved_dangling (m : gmap str uuid) ns e :
  (forall k, is_Some (m !! k) <-> In k (node_keys ns)) ->
  unresolved m e = dangling ns e.
Proof.
  intros Hk. unfold unresolved, dangling.
  pose proof (Hk (normalize_key (source e))) as Hs.
  pose proof (Hk (normalize_key (target e))) as Ht.
  rewrite <- list_elem_of_In in Hs, Ht.
  destruct (m !! normalize_key (source e)) as [si|].
  - rewrite (bool_decide_eq_true_2 _ (proj1 Hs (mk_is_Some _ _ eq_refl))).
    destruct (m !! normalize_key (target e)) as [ti|].
    + now rewrite (bool_decide_eq_true_2 _ (proj1 Ht (mk_is_Some _ _ eq_refl))).
    + rewrite bool_decide_eq_false_2; [reflexivity|].
      intros H. apply Ht in H. now destruct H.
  - rewrite bool_decide_eq_false_2; [reflexivity|].
    intros H. apply Hs in H. now destruct H.
Qed.

(** What [consume] does with one extraction result. *)
Lemma consume_spec (g : ExtractionResult) (paper_title : str) (w : world) :
  Valid (db w) ->
  let k := Z.of_nat (length (List.filter (dangling (nodes g)) (edges g))) in
  exists (m : gmap str uuid) w1 w',
    create_nodes (nodes g) paper_title ∅ w = (w1, Ok m) /\
    consume g paper_title w = (w', Ok k) /\
    Valid (db w') /\ (Distinct (db w) -> Distinct (db w')) /\
    grows (db w) (db w1) /\ grows (db w1) (db w') /\
    tbl_edges (db w1) = tbl_edges (db w) /\ tbl_nodes (db w') = tbl_nodes (db w1) /\
    out w' = out w ++ (if 0 <? k then [PrintSkippedEdges k] else []) /\
    (forall n, In n (nodes g) -> count_nodes (name n) (type n) (db w') = 1%nat) /\
    (forall key, is_Some (m !! key) <-> In key (node_keys (nodes g))) /\
    (forall key i, m !! key = Some i ->
       exists r, In r (tbl_nodes (db w')) /\ node_id r = i /\
                 normalize_key (node_name r) = key) /\
    (forall e si ti, In e (edges g) ->
       m !! normalize_key (source e) = Some si ->
       m !! normalize_key (target e) = Some ti ->
       (1 <= count_edges si ti (relation e) (db w'))%nat) /\
    (length (tbl_edges (db w')) + Z.to_nat k
     <= length (tbl_edges (db w)) + length (edges g))%nat.
Proof.
  intros HV k.
  destruct (create_nodes_spec (nodes g) paper_title ∅ w HV)
    as (m & w1 & Hrun1 & HV1 & Ho1 & Hg1 & He1 & Hm1 & Hc1 & Hk1 & Hr1).
  { intros key i H. rewrite lookup_empty in H. discriminate. }
  assert (forall key, is_Some (m !! key) <-> In key (node_keys (nodes g))) as Hk.
  { intros key. rewrite Hk1, lookup_empty. split; [intros [[? H] | H]; [discriminate | exact H] | auto]. }
  destruct (create_edges_spec (edges g) m 0 w1 HV1 Hm1)
    as (w2 & Hrun2 & HV2 & Ho2 & Hg2 & Hn2 & Hl2 & Hc2 & HD2).
  rewrite (filter_ext_length (unresolved m) (dangling (nodes g))) in Hrun2, Hl2
    by (intros; now apply unresolved_dangling).
  rewrite Z.add_0_l in Hrun2. fold k in Hrun2.
  assert (forall n, In n (nodes g) -> count_nodes (name n) (type n) (db w2) = 1%nat) as Hc.
  { intros n Hn. unfold count_nodes in *. rewrite Hn2. now apply Hc1. }
  assert (forall key i, m !! key = Some i ->
            exists r, In r (tbl_nodes (db w2)) /\ node_id r = i /\
                      normalize_key (node_name r) = key) as Hr.
  { intros key i H. destruct (Hr1 key i H) as [H0 | H0].
    - rewrite lookup_empty in H0. discriminate.
    - now rewrite Hn2. }
  assert (Distinct (db w) -> Distinct (db w2)) as HD.
  { intros H. apply HD2. intros a b c. unfold count_edges. rewrite He1. apply H. }
  assert ((length (tbl_edges (db w2)) + Z.to_nat k
           <= length (tbl_edges (db w)) + length (edges g))%nat) as Hl.
  { rewrite <- He1. unfold k. lia. }
  exists m, w1.
  unfold consume, bind. rewrite Hrun1, Hrun2.
  destruct (0 <? k) eqn:Ek.
  - eexists. split; [reflexivity|]. split; [reflexivity|]. cbn [print db out].
    split_and!; auto. congruence.
  - exists w2. split; [reflexivity|]. split; [reflexivity|].
    split_and!; auto. rewrite app_nil_r. congruence.
Qed.

(** A property of the store that survives the insertion of a candidate node
    with a new pair survives the first pass; one that survives the
    insertion of a candidate edge between stored nodes survives the second;
    one that survives both survives [consume]. *)
Lemma create_nodes_preserves (P : store -> Prop) (ns : list GraphNode) (paper_title : str)
    (m m' : gmap str uuid) (w w' : world) :
  (forall s n, In n ns -> Valid s -> count_nodes (name n) (type n) s = 0%nat -> P s ->
     P (add_node s (name n) (type n) (node_properties_of n paper_title))) ->
  Valid (db w) -> P (db w) ->
  create_nodes ns paper_title m w = (w', Ok m') -> P (db w').
Proof.
  revert m w. induction ns as [|n ns IH]; intros m w Hstep HV HP Hrun.
  - cbn in Hrun. injection Hrun as <- _. exact HP.
  - assert (forall s n', In n' ns -> Valid s -> count_nodes (name n') (type n') s = 0%nat ->
              P s -> P (add_node s (name n') (type n') (node_properties_of n' paper_title)))
      as Hstep' by (intros; apply Hstep; auto; now right).
    cbn [create_nodes] in Hrun. unfold bind at 1 in Hrun.
    destruct (select_node_id (name n) (type n) (db w)) as [i|] eqn:E.
    + rewrite (get_or_create_node_found _ _ _ _ E) in Hrun. exact (IH _ _ Hstep' HV HP Hrun).
    + rewrite (get_or_create_node_new _ _ _ HV E) in Hrun.
      apply select_node_id_None in E.
      refine (IH _ _ Hstep' _ _ Hrun); cbn [with_db db].
      * now apply Valid_add_node.
      * apply Hstep; auto. now left.
Qed.

Lemma create_edges_preserves (P : store -> Prop) (es : list GraphEdge) (m : gmap str uuid)
    (skipped : Z) (w w' : world) (r : res Z) :
  (forall s e si ti, In e es -> Valid s ->
     node_exists si s = true -> node_exists ti s = true -> P s ->
     P (add_edge s si ti (relation e) (context e))) ->
  Valid (db w) ->
  (forall k i, m !! k = Some i -> node_exists i (db w) = true) ->
  P (db w) ->
  create_edges es m skipped w = (w', r) -> P (db w').
Proof.
  revert skipped w. induction es as [|e es IH]; intros skipped w Hstep HV Hm HP Hrun.
  - cbn in Hrun. injection Hrun as <- _. exact HP.
  - assert (forall s e' si ti, In e' es -> Valid s ->
              node_exists si s = true -> node_exists ti s = true -> P s ->
              P (add_edge s si ti (relation e') (context e')))
      as Hstep' by (intros; apply Hstep; auto; now right).
    cbn [create_edges] in Hrun.
    destruct (m !! normalize_key (source e)) as [si|] eqn:Es;
      [destruct (m !! normalize_key (target e)) as [ti|] eqn:Et|];
      [|exact (IH _ _ Hstep' HV Hm HP Hrun)..].
    pose proof (Hm _ _ Es) as Hsi. pose proof (Hm _ _ Et) as Hti.
    unfold bind at 1 in Hrun.
    destruct (select_edge_id si ti (relation e) (db w)) as [j|] eqn:F.
    + rewrite (create_edge_found _ _ _ _ _ F) in Hrun. exact (IH _ _ Hstep' HV Hm HP Hrun).
    + rewrite (create_edge_new _ _ _ _ HV Hsi Hti F) in Hrun.
      refine (IH _ _ Hstep' _ _ _ Hrun); cbn [with_db db].
      * now apply Valid_add_edge.
      * intros k i Hk. rewrite (node_exists_same_nodes (db w)); [eauto | reflexivity].
      * apply Hstep; auto. now left.
Qed.

Lemma consume_preserves (P : store -> Prop) (g : ExtractionResult) (paper_title : str)
    (w w' : world) (r : res Z) :
  (forall s n, In n (nodes g) -> Valid s -> count_nodes (name n) (type n) s = 0%nat -> P s ->
     P (add_node s (name n) (type n) (node_properties_of n paper_title))) ->
  (forall s e si ti, In e (edges g) -> Valid s ->
     node_exists si s = true -> node_exists ti s = true -> P s ->
     P (add_edge s si ti (relation e) (context e))) ->
  Valid (db w) -> P (db w) ->
  consume g paper_title w = (w', r) -> P (db w').
Proof.
  intros Hn He HV HP Hrun.
  destruct (create_nodes_spec (nodes g) paper_title ∅ w HV)
    as (m & w1 & Hrun1 & HV1 & _ & _ & _ & Hm1 & _).
  { intros key i H. rewrite lookup_empty in H. discriminate. }
  pose proof (create_nodes_preserves P _ _ _ _ _ _ Hn HV HP Hrun1) as HP1.
  destruct (create_edges_spec (edges g) m 0 w1 HV1 Hm1) as (w2 & Hrun2 & _).
  pose proof (create_edges_preserves P _ _ _ _ _ _ He HV1 Hm1 HP1 Hrun2) as HP2.
  unfold consume, bind in Hrun. rewrite Hrun1, Hrun2 in Hrun.
  destruct (0 <? _); cbn in Hrun; injection Hrun as <- _; exact HP2.
Qed.

(** C8.  When exactly one candidate edge names an endpoint whose key is the
    key of no candidate node, [consume] does not raise: every candidate node
    is stored (once), every other edge is stored between two stored nodes
    whose names have the keys of its endpoints, the dangling edge adds no
    row, and the tally that is returned and printed is 1. *)
Theorem consume_drops_dangling_edge (g : ExtractionResult) (paper_title : str) (w : world) :
  schema_valid (db w) = true ->
  length (List.filter (dangling (nodes g)) (edges g)) = 1%nat ->
  exists w',
    consume g paper_title w = (w', Ok 1) /\
    out w' = out w ++ [PrintSkippedEdges 1] /\
    (forall n, In n (nodes g) -> count_nodes (name n) (type n) (db w') = 1%nat) /\
    (forall e, In e (edges g) -> dangling (nodes g) e = false ->
       exists rs rt,
         In rs (tbl_nodes (db w')) /\ In rt (tbl_nodes (db w')) /\
         normalize_key (node_name rs) = normalize_key (source e) /\
         normalize_key (node_name rt) = normalize_key (target e) /\
         (1 <= count_edges (node_id rs) (node_id rt) (relation e) (db w'))%nat) /\
    (length (tbl_edges (db w')) < length (tbl_edges (db w)) + length (edges g))%nat.
Proof.
  intros HV H1. apply schema_valid_Valid in HV.
  destruct (consume_spec g paper_title w HV)
    as (m & w1 & w' & _ & Hrun & _ & _ & _ & _ & _ & _ & Ho & Hc & Hk & Hr & He & Hl).
  rewrite H1 in Hrun, Ho, Hl. cbn in Ho.
  exists w'. split_and!; auto; [|lia].
  intros e Hin Hd. rewrite <- (unresolved_dangling m _ _ Hk) in Hd. unfold unresolved in Hd.
  destruct (m !! normalize_key (source e)) as [si|] eqn:Es; [|discriminate].
  destruct (m !! normalize_key (target e)) as [ti|] eqn:Et; [|discriminate].
  destruct (Hr _ _ Es) as (rs & Hrs & <- & Hks).
  destruct (Hr _ _ Et) as (rt & Hrt & <- & Hkt).
  exists rs, rt. split_and!; eauto.
Qed.

Lemma consume_drops_dangling_edge_witness :
  let g := {| nodes := [method_node "NeRF" None; method_node "3D-GS" None];
              edges := [ {| source := lit "nerf"; target := lit "3d gs";
                            relation := lit "USES"; context := lit "a" |};
                         {| source := lit "nerf"; target := lit "SLAM";
                            relation := lit "USES"; context := lit "b" |} ] |} in
  let w := {| db := reset_database; out := [] |} in
  schema_valid (db w) = true /\
  length (List.filter (dangling (nodes g)) (edges g)) = 1%nat /\
  exists w', consume g (lit "paper") w = (w', Ok 1) /\
             out w' = out w ++ [PrintSkippedEdges 1].
Proof.
  intros g w.
  assert (schema_valid (db w) = true) as HV by (vm_compute; reflexivity).
  assert (length (List.filter (dangling (nodes g)) (edges g)) = 1%nat) as H1
    by (vm_compute; reflexivity).
  split; [exact HV|]. split; [exact H1|].
  destruct (consume_drops_dangling_edge g (lit "paper") w HV H1) as (w' & Hrun & Ho & _).
  exists w'. split; assumption.
Defined.

End Consumer.

(** * The pipeline driver *)

Section Driver.

Lemma read_pages_spec (file_path : str) (pages : list page) (acc : str) (w : world) :
  read_pages file_path pages acc w
  = (with_out w (out w ++ page_warnings file_path pages), Ok (acc ++ pages_text pages)).
Proof.
  revert acc w. induction pages as [|[t|] rest IH]; intros acc w.
  - cbn. unfold ret, with_out. rewrite !app_nil_r. now destruct w.
  - cbn [read_pages pages_text page_warnings]. destruct t as [|c t]; [apply IH|].
    rewrite IH. now rewrite <- !app_assoc.
  - cbn [read_pages pages_text page_warnings]. unfold bind, print. rewrite IH.
    unfold with_out. cbn [db out]. now rewrite <- app_assoc.
Qed.

Lemma process_pdf_opened (d : dir_entry) (pages : list page) (w : world) :
  pdf_reader d = Ok pages ->
  process_pdf (file_path_of d) (pdf_reader d) w
  = (with_out w (out w ++ warnings_of d), Ok (raw_text_of d)).
Proof.
  intros E. unfold warnings_of, raw_text_of. rewrite E. unfold process_pdf, bind.
  rewrite read_pages_spec. cbn [app].
  destruct (len (cleanup (pages_text pages)) <? 500); reflexivity.
Qed.

Lemma raw_text_readable (d : dir_entry) : readable d = true -> raw_text_of d <> [].
Proof.
  unfold readable, raw_text_of. destruct (pdf_reader d) as [pages|]; [|discriminate].
  intros H. apply Z.leb_le in H. set (t := cleanup (pages_text pages)) in *.
  destruct (Z.ltb_spec (len t) 500); [lia|].
  intros E. apply (f_equal len) in E. change (len []) with 0 in E.
  destruct (Z.le_gt_cases (len t) 40000) as [Hle | Hgt].
  - unfold truncate in E. destruct (Z.leb_spec (len t) 40000); lia.
  - rewrite truncate_long, !len_app, len_slice_to, len_slice_last, len_separator in E; lia.
Qed.

Lemma readable_opened (d : dir_entry) :
  readable d = true -> exists pages, pdf_reader d = Ok pages.
Proof. unfold readable. destruct (pdf_reader d); [eauto | discriminate]. Qed.

(** The file cannot be opened: the exception leaves [process_file]. *)
Lemma process_file_reader_error (d : dir_entry) (e : exn) (w : world) :
  pdf_reader d = Raise e -> process_file d w = (w, Raise e).
Proof. intros E. unfold process_file, bind, process_pdf. now rewrite E. Qed.

(** The text is too short: the file is skipped. *)
Lemma process_file_skipped (d : dir_entry) (pages : list page) (w : world) :
  pdf_reader d = Ok pages -> len (cleanup (pages_text pages)) < 500 ->
  process_file d w
  = (with_out w (out w ++ page_warnings (file_path_of d) pages ++ [PrintSkipping (filename d)]),
     Ok tt).
Proof.
  intros E H. unfold process_file. fold (file_path_of d). unfold bind at 1.
  rewrite (process_pdf_opened d pages w E). unfold raw_text_of, warnings_of. rewrite E.
  destruct (Z.ltb_spec (len (cleanup (pages_text pages))) 500); [|lia].
  unfold print, with_out. cbn [db out]. now rewrite <- app_assoc.
Qed.

(** The collaborator raises: the error is printed and the file is left. *)
Lemma process_file_llm_error (d : dir_entry) (e : exn) (w : world) :
  readable d = true -> structured_llm d (prompt_of d) = Raise e ->
  process_file d w
  = (with_out w (out w ++ warnings_of d
                 ++ [PrintAnalyzing (paper_title_of d); InvokeLlm (prompt_of d);
                     PrintErrorAnalyzing (filename d) e]),
     Ok tt).
Proof.
  intros Hr He. destruct (readable_opened d Hr) as [pages E].
  pose proof (raw_text_readable d Hr) as Hne.
  unfold process_file. fold (file_path_of d). fold (paper_title_of d). unfold bind at 1.
  rewrite (process_pdf_opened d pages w E).
  destruct (raw_text_of d) as [|c t] eqn:Et; [congruence|].
  unfold bind, try_except, extract_graph, bind, print, ret, raise, with_out. cbn [db out].
  rewrite <- Et. fold (prompt_of d). rewrite He. cbn [db out].
  now rewrite <- !app_assoc.
Qed.

(** The collaborator answers: its result is consumed. *)
Lemma process_file_extracted (d : dir_entry) (g : ExtractionResult) (w : world) :
  readable d = true -> structured_llm d (prompt_of d) = Ok g ->
  process_file d w
  = bind (consume g (paper_title_of d)) (fun _ => ret tt)
         (with_out w (out w ++ warnings_of d
                      ++ [PrintAnalyzing (paper_title_of d); InvokeLlm (prompt_of d);
                          PrintExtracted (length (nodes g)) (length (edges g))])).
Proof.
  intros Hr He. destruct (readable_opened d Hr) as [pages E].
  pose proof (raw_text_readable d Hr) as Hne.
  unfold process_file. fold (file_path_of d). fold (paper_title_of d). unfold bind at 1.
  rewrite (process_pdf_opened d pages w E).
  destruct (raw_text_of d) as [|c t] eqn:Et; [congruence|].
  unfold bind at 1. unfold try_except, extract_graph, bind at 1 2 3 4, print, ret, raise, with_out.
  cbn [db out]. rewrite <- Et. fold (prompt_of d). rewrite He. cbn [db out].
  now rewrite <- !app_assoc.
Qed.

(** X17.  When the collaborator raises for a readable file, the exception is
    caught: the error is printed after the two lines of the call, the store
    is left as it was, and the loop goes on with the next file. *)
Lemma main_loop_continues_after_llm_error (d : dir_entry) (e : exn) rest (w : world) :
  readable d = true -> structured_llm d (prompt_of d) = Raise e ->
  main_loop (d :: rest) w
  = main_loop rest
      (with_out w (out w ++ warnings_of d
                   ++ [PrintAnalyzing (paper_title_of d); InvokeLlm (prompt_of d);
                       PrintErrorAnalyzing (filename d) e])).
Proof.
  intros Hr He. cbn [main_loop]. unfold bind at 1.
  now rewrite (process_file_llm_error d e w Hr He).
Qed.

Lemma page_warnings_no_invoke (file_path : str) (pages : list page) :
  existsb is_invoke (page_warnings file_path pages) = false.
Proof. induction pages as [|[t|] ps IH]; cbn; auto. Qed.

(** C9.  A file whose cleaned-up text has fewer than 500 characters is
    reported as skipped; nothing on its trace is a call of the extraction
    collaborator, the store is untouched, and the loop goes on with the
    next file. *)
Theorem short_text_skipped_before_extraction (d : dir_entry) (pages : list page)
    (rest : list dir_entry) (w : world) :
  pdf_reader d = Ok pages ->
  len (cleanup (pages_text pages)) < 500 ->
  let trace := page_warnings (file_path_of d) pages ++ [PrintSkipping (filename d)] in
  process_file d w = ({| db := db w; out := out w ++ trace |}, Ok tt) /\
  existsb is_invoke trace = false /\
  main_loop (d :: rest) w = main_loop rest {| db := db w; out := out w ++ trace |}.
Proof.
  intros E H trace. pose proof (process_file_skipped d pages w E H) as Hrun.
  split; [exact Hrun|]. split.
  - unfold trace. rewrite existsb_app, page_warnings_no_invoke. reflexivity.
  - cbn [main_loop]. unfold bind at 1. now rewrite Hrun.
Qed.

Lemma short_text_skipped_before_extraction_witness :
  let pages := [PageText (repeat "a"%char 300)] in
  let d := {| filename := lit "short.pdf"; pdf_reader := Ok pages;
              structured_llm := fun _ => Raise LlmError |} in
  let w := {| db := reset_database; out := [] |} in
  len (cleanup (pages_text pages)) = 300 /\
  process_file d w = ({| db := reset_database; out := [PrintSkipping (lit "short.pdf")] |}, Ok tt).
Proof.
  intros pages d w.
  assert (len (cleanup (pages_text pages)) = 300) as H by (vm_compute; reflexivity).
  split; [exact H|].
  apply (proj1 (short_text_skipped_before_extraction d pages [] w eq_refl
                  ltac:(rewrite H; reflexivity))).
Defined.

(** C4, on the failing input.  When [PdfReader] raises for a file, the call
    of [process_pdf] is outside every [try]: the exception leaves the loop,
    nothing is printed for that file and no later file is processed. *)
Theorem main_loop_aborts_on_reader_error (fn : str) (e : exn)
    (llm : prompt -> res ExtractionResult) (rest : list dir_entry) (w : world) :
  main_loop ({| filename := fn; pdf_reader := Raise e; structured_llm := llm |} :: rest) w
  = (w, Raise e).
Proof.
  cbn [main_loop]. unfold bind at 1.
  now rewrite (process_file_reader_error
                 {| filename := fn; pdf_reader := Raise e; structured_llm := llm |}
                 e w eq_refl).
Qed.

(** The whole run on a directory whose first file cannot be opened: the run
    ends with the exception, and the second file, which is readable, is
    never looked at. *)
Example main_stops_at_unreadable_pdf :
  let bad := {| filename := lit "bad.pdf"; pdf_reader := Raise PdfReadError;
                structured_llm := fun _ => Raise LlmError |} in
  let good := {| filename := lit "good.pdf";
                 pdf_reader := Ok [PageText (repeat "a"%char 600)];
                 structured_llm := fun _ => Ok {| nodes := [method_node "NeRF" None];
                                                  edges := [] |} |} in
  main {| DATABASE_URL := Some (lit "postgresql://db"); reachable_db := true;
          research_agent := Ok tt; papers_dir := Some [bad; good] |}
       {| db := reset_database; out := [] |}
  = ({| db := reset_database; out := [PrintFound 2] |}, Raise PdfReadError).
Proof. vm_compute. reflexivity. Qed.

End Driver.

(** * Further properties of the name normaliser *)

Section NormalizerShape.

Lemma lstrip_length (s : str) : (length (lstrip s) <= length s)%nat.
Proof. induction s as [|c r IH]; cbn; [lia|]. destruct (isspace c); cbn; lia. Qed.

Lemma rstrip_length (s : str) : (length (rstrip s) <= length s)%nat.
Proof.
  induction s as [|c r IH]; [cbn; lia|]. rewrite rstrip_cons.
  destruct (has_visible (c :: r)); cbn; lia.
Qed.

Lemma strip_length (s : str) : (length (strip s) <= length s)%nat.
Proof.
  unfold strip. pose proof (rstrip_length (lstrip s)). pose proof (lstrip_length s). lia.
Qed.

(** X1.  The key of a name is empty exactly when the name has no visible
    character: the empty name and every name made of whitespace only share
    the empty key, and no other name has it. *)
Theorem normalize_key_empty_iff (s : str) :
  normalize_key s = [] <-> has_visible s = false.
Proof.
  rewrite normalize_key_eq. unfold strip.
  rewrite <- (has_visible_map lower_char s isspace_lower).
  rewrite <- (lstrip_has_visible (map lower_char s)), <- rstrip_nil_iff.
  unfold lower. destruct (rstrip (lstrip (map lower_char s))); cbn; split; congruence.
Qed.

(** X2.  For a name over the code points U+0000..U+00FF, which is what
    [str] holds here and where [lower] maps each character to one character:
    a key is exactly as long as the trimmed name, so never longer than the
    name; it holds no hyphen, no underscore and no capital letter A-Z, and
    lower-casing it again changes nothing.  (Outside that range U+0130
    lower-cases to two code points, and the two statements on the length do
    not carry over to a name that holds it.) *)
Theorem normalize_key_shape (s : str) :
  length (normalize_key s) = length (strip s) /\
  (length (normalize_key s) <= length s)%nat /\
  Forall (fun c => is_sep c = false /\ is_upper_ascii c = false) (normalize_key s) /\
  lower (normalize_key s) = normalize_key s.
Proof.
  rewrite normalize_key_eq, strip_lower. unfold lower. rewrite !length_map.
  split; [reflexivity|]. split; [apply strip_length|]. split.
  - rewrite map_map. generalize (strip s). intros l.
    induction l as [|c l IH]; constructor; [|exact IH].
    destruct c as [[] [] [] [] [] [] [] []]; vm_compute; auto.
  - rewrite !map_map. apply map_ext. intros c. apply lower_sep_to_space.
Qed.

End NormalizerShape.

(** * Safety of the store operations *)

Section StoreSafety.

(** A property that holds of the empty database and survives the insertion
    of a node with a new pair, and of an edge with a new triple between
    stored nodes, holds of every reachable store. *)
Lemma reachable_add_ind (P : store -> Prop) :
  P reset_database ->
  (forall s nm ty props,
     reachable s -> P s -> count_nodes nm ty s = 0%nat -> P (add_node s nm ty props)) ->
  (forall s src tgt ty ctx,
     reachable s -> P s -> node_exists src s = true -> node_exists tgt s = true ->
     count_edges src tgt ty s = 0%nat -> P (add_edge s src tgt ty ctx)) ->
  forall s, reachable s -> P s.
Proof.
  intros H0 Hn He s Hs.
  induction Hs as [|node paper w w' i Hr IH Hrun|src tgt edge w w' Hr IH Hrun]; [exact H0| |].
  - pose proof (proj1 (reachable_invariants _ Hr)) as HV.
    destruct (select_node_id (name node) (type node) (db w)) as [j|] eqn:E.
    + rewrite (get_or_create_node_found _ _ _ _ E) in Hrun. injection Hrun as <- _. exact IH.
    + rewrite (get_or_create_node_new _ _ _ HV E) in Hrun. injection Hrun as <- _.
      cbn [with_db db]. apply Hn; auto. now apply select_node_id_None.
  - pose proof (proj1 (reachable_invariants _ Hr)) as HV.
    unfold create_edge, bind, get_db in Hrun.
    destruct (select_edge_id src tgt (relation edge) (db w)) eqn:E.
    { injection Hrun as <-. exact IH. }
    destruct (node_exists src (db w)) eqn:Hs; [destruct (node_exists tgt (db w)) eqn:Ht|].
    + rewrite (insert_edge_fresh _ _ _ _ _ HV Hs Ht) in Hrun. injection Hrun as <-.
      cbn [with_db db]. apply He; auto. now apply select_edge_id_None.
    + unfold insert_edge in Hrun. rewrite Hs, Ht in Hrun. discriminate.
    + unfold insert_edge in Hrun. rewrite Hs in Hrun. discriminate.
Qed.


Lemma plain_store_add_edge (s : store) (src tgt : uuid) (ty ctx : str) :
  nul_free ty = true -> nul_free ctx = true ->
  plain_store s = true -> plain_store (add_edge s src tgt ty ctx) = true.
Proof.
  intros Ht Hc H. unfold plain_store in *. apply andb_true_iff in H as [H1 H2].
  cbn [add_edge tbl_nodes tbl_edges]. rewrite forallb_app, H1, H2.
  cbn [forallb]. unfold plain_edge_row.
  cbn [edge_type edge_citation_context edge_properties nul_free_opt plain_jsonb forallb].
  now rewrite Ht, Hc.
Qed.





(** X4.  On a store that satisfies the schema, [create_edge] with an
    identifier that is no stored node raises the foreign-key violation of
    the edges table and leaves the store and the output as they were. *)
Theorem create_edge_missing_endpoint (source_id target_id : uuid) (edge : GraphEdge)
    (w : world) :
  schema_valid (db w) = true ->
  node_exists source_id (db w) && node_exists target_id (db w) = false ->
  create_edge source_id target_id edge w = (w, Raise (IntegrityError ForeignKeyViolation)).
Proof.
  intros HV Hne. apply schema_valid_Valid in HV.
  unfold create_edge, bind, get_db.
  destruct (select_edge_id source_id target_id (relation edge) (db w)) as [i|] eqn:E.
  - exfalso. unfold select_edge_id in E.
    destruct (List.find _ _) as [r|] eqn:F; [|discriminate].
    apply find_some in F as [Hin Hm].
    change (edge_matches source_id target_id (relation edge) r = true) in Hm.
    apply edge_matches_iff in Hm as (<- & <- & _).
    destruct (valid_ends _ HV r Hin) as [Hs Ht]. rewrite Hs, Ht in Hne. discriminate.
  - unfold insert_edge. now rewrite Hne.
Qed.

Lemma create_edge_missing_endpoint_witness :
  let edge := {| source := lit "a"; target := lit "b"; relation := lit "USES";
                 context := lit "a uses b" |} in
  let w := {| db := reset_database; out := [] |} in
  schema_valid (db w) = true /\
  create_edge 7 8 edge w = (w, Raise (IntegrityError ForeignKeyViolation)).
Proof.
  intros edge w. split; [reflexivity|].
  apply (create_edge_missing_endpoint 7%nat 8%nat edge w); reflexivity.
Defined.

(** X5.  On a store that satisfies the schema and holds no two edges with
    the same triple, [create_edge] between two stored nodes, for an edge
    whose relation and context hold no U+0000, never raises.  It prints
    nothing, leaves the nodes alone, keeps every edge row in place and
    appends at most one; afterwards exactly one edge has the triple, both
    properties of the store still hold, and the store holds no U+0000 if it
    held none. *)
Theorem create_edge_safe (source_id target_id : uuid) (edge : GraphEdge) (w : world) :
  schema_valid (db w) = true -> edges_unique (db w) = true ->
  node_exists source_id (db w) = true -> node_exists target_id (db w) = true ->
  plain_edge edge = true ->
  exists w' extra,
    create_edge source_id target_id edge w = (w', Ok tt) /\
    schema_valid (db w') = true /\ edges_unique (db w') = true /\
    out w' = out w /\
    tbl_nodes (db w') = tbl_nodes (db w) /\
    tbl_edges (db w') = tbl_edges (db w) ++ extra /\ (length extra <= 1)%nat /\
    count_edges source_id target_id (relation edge) (db w') = 1%nat /\
    (plain_store (db w) = true -> plain_store (db w') = true).
Proof.
  intros HV HD Hs Ht Hpe. apply schema_valid_Valid in HV. apply edges_unique_Distinct in HD.
  destruct (select_edge_id source_id target_id (relation edge) (db w)) as [i|] eqn:E.
  - exists w, []. rewrite (create_edge_found _ _ _ _ _ E).
    split_and!; auto using Valid_schema_valid, Distinct_edges_unique;
      try (now rewrite app_nil_r); try (cbn; lia).
    pose proof (HD source_id target_id (relation edge)).
    destruct (count_edges source_id target_id (relation edge) (db w)) eqn:F; [|lia].
    apply select_edge_id_None in F. congruence.
  - pose proof E as E0. apply select_edge_id_None in E0.
    exists (with_db w (add_edge (db w) source_id target_id (relation edge) (context edge))),
           [{| edge_id := uuid_supply (db w); edge_source_id := source_id;
               edge_target_id := target_id; edge_type := relation edge;
               edge_citation_context := Some (context edge); edge_properties := [] |}].
    rewrite (create_edge_new _ _ _ _ HV Hs Ht E).
    split; [reflexivity|]. cbn [with_db db out].
    split; [|split; [|split; [reflexivity|split; [reflexivity|split; [reflexivity|split;
      [cbn; lia|split]]]]]].
    + now apply Valid_schema_valid, Valid_add_edge.
    + now apply Distinct_edges_unique, Distinct_add_edge.
    + rewrite count_edges_add, E0, !bool_decide_eq_true_2 by reflexivity. reflexivity.
    + unfold plain_edge in Hpe. apply andb_true_iff in Hpe as [Hr Hc].
      now apply plain_store_add_edge.
Qed.

Lemma create_edge_safe_witness :
  let s := add_node (add_node reset_database (lit "NeRF") (lit "Method") [])
                    (lit "PSNR") (lit "Metric") [] in
  let w := {| db := s; out := [] |} in
  let edge := {| source := lit "NeRF"; target := lit "PSNR"; relation := lit "EVALUATED_ON";
                 context := lit "We report PSNR." |} in
  schema_valid (db w) = true /\ edges_unique (db w) = true /\ plain_edge edge = true /\
  exists w', create_edge 1 2 edge w = (w', Ok tt) /\
             count_edges 1 2 (relation edge) (db w') = 1%nat /\
             plain_store (db w') = true.
Proof.
  intros s w edge.
  assert (plain_edge edge = true) as Hp by (vm_compute; reflexivity).
  split; [vm_compute; reflexivity|]. split; [vm_compute; reflexivity|]. split; [exact Hp|].
  destruct (create_edge_safe 1%nat 2%nat edge w)
    as (w' & extra & Hrun & _ & _ & _ & _ & _ & _ & Hc & HP);
    try (vm_compute; reflexivity).
  exists w'. split; [exact Hrun|]. split; [exact Hc|]. apply HP. vm_compute. reflexivity.
Defined.

(** X6.  Every store that the two operations build from an empty database
    satisfies the schema, holds no two edges with the same triple and no two
    nodes with the same identifier, and has a citation context on every
    edge. *)
Theorem reachable_store_invariants (s : store) :
  reachable s ->
  schema_valid s = true /\ edges_unique s = true /\
  ids_unique s = true /\ contexts_present s = true.
Proof.
  intros Hs. destruct (reachable_invariants s Hs) as [HV HD].
  split; [now apply Valid_schema_valid|]. split; [now apply Distinct_edges_unique|].
  split.
  - clear HV HD. unfold ids_unique. apply bool_decide_eq_true.
    induction Hs as [| s nm ty props Hr IH H0 | s src tgt ty ctx Hr IH _ _ _]
      using reachable_add_ind; [apply NoDup_nil_2 | | exact IH].
    cbn [add_node tbl_nodes]. rewrite map_app. cbn [map node_id].
    apply NoDup_app. split; [exact IH|]. split; [|apply NoDup_singleton].
    intros x Hx Hx'. apply list_elem_of_singleton in Hx'. subst x.
    apply list_elem_of_In, in_map_iff in Hx as (r & Hid & Hin).
    pose proof (valid_node_ids _ (proj1 (reachable_invariants _ Hr)) r Hin). lia.
  - clear HV HD. unfold contexts_present.
    induction Hs as [| s nm ty props Hr IH H0 | s src tgt ty ctx Hr IH _ _ _]
      using reachable_add_ind; [reflexivity | exact IH |].
    cbn [add_edge tbl_edges]. rewrite forallb_app, IH. reflexivity.
Qed.

Lemma reachable_store_invariants_witness :
  let node := {| name := lit "NeRF"; type := lit "Method"; description := None |} in
  let w := {| db := reset_database; out := [] |} in
  let s := db (fst (get_or_create_node node (lit "paper") w)) in
  reachable s /\ schema_valid s = true /\ ids_unique s = true.
Proof.
  intros node w s.
  assert (reachable s) as Hs.
  { apply (reach_node node (lit "paper") w (fst (get_or_create_node node (lit "paper") w)) 1%nat);
      [apply reach_reset | reflexivity]. }
  split; [exact Hs|].
  destruct (reachable_store_invariants s Hs) as (H1 & _ & H3 & _). split; assumption.
Defined.

End StoreSafety.

(** * Repeated and overlapping extraction results *)

Section Batches.

Lemma find_app_some {A} (f : A -> bool) (l l' : list A) (x : A) :
  List.find f l = Some x -> List.find f (l ++ l') = Some x.
Proof.
  induction l as [|a l IH]; [discriminate|]. cbn. destruct (f a); auto.
Qed.

Lemma select_node_id_grows (nm ty : str) (s s' : store) (i : uuid) :
  grows s s' -> select_node_id nm ty s = Some i -> select_node_id nm ty s' = Some i.
Proof.
  intros [[extra E] _]. unfold select_node_id. rewrite E.
  destruct (List.find _ (tbl_nodes s)) as [r|] eqn:F; [|discriminate].
  intros H. now rewrite (find_app_some _ _ extra _ F).
Qed.

Lemma select_node_id_same_nodes (nm ty : str) (s s' : store) :
  tbl_nodes s' = tbl_nodes s -> select_node_id nm ty s' = select_node_id nm ty s.
Proof. intros E. unfold select_node_id. now rewrite E. Qed.

Lemma lookup_nodes_same_nodes (s s' : store) (ns : list GraphNode) (m : gmap str uuid) :
  tbl_nodes s' = tbl_nodes s -> lookup_nodes s' ns m = lookup_nodes s ns m.
Proof.
  intros E. revert m. induction ns as [|n ns IH]; intros m; [reflexivity|].
  cbn. rewrite (select_node_id_same_nodes _ _ _ _ E).
  destruct (select_node_id (name n) (type n) s); apply IH.
Qed.

Lemma lookup_nodes_app (s : store) (a b : list GraphNode) (m : gmap str uuid) :
  lookup_nodes s (a ++ b) m = lookup_nodes s b (lookup_nodes s a m).
Proof.
  revert m. induction a as [|n a IH]; intros m; [reflexivity|].
  cbn. destruct (select_node_id (name n) (type n) s); apply IH.
Qed.

Lemma lookup_nodes_other (s : store) (ns : list GraphNode) (m : gmap str uuid) (k : str) :
  (forall n, In n ns -> normalize_key (name n) <> k) ->
  lookup_nodes s ns m !! k = m !! k.
Proof.
  revert m. induction ns as [|n ns IH]; intros m H; [reflexivity|].
  cbn. assert (forall n', In n' ns -> normalize_key (name n') <> k) as H'
    by (intros; apply H; now right).
  destruct (select_node_id (name n) (type n) s); rewrite (IH _ H'); [|reflexivity].
  apply lookup_insert_ne. apply H. now left.
Qed.

(** The map of the first pass, read off the store that the pass leaves. *)
Lemma create_nodes_map (ns : list GraphNode) (paper_title : str) (m : gmap str uuid)
    (w : world) :
  Valid (db w) ->
  exists w',
    create_nodes ns paper_title m w = (w', Ok (lookup_nodes (db w') ns m)) /\
    Valid (db w') /\ grows (db w) (db w').
Proof.
  revert m w. induction ns as [|n ns IH]; intros m w HV.
  - exists w. cbn. auto using grows_refl.
  - destruct (get_or_create_node_spec n paper_title w HV)
      as (i & w1 & Hrun & HV1 & _ & Hg1 & _ & Hsel & _).
    destruct (IH (<[normalize_key (name n) := i]> m) w1 HV1) as (w' & Hrun' & HV' & Hg').
    exists w'. cbn [create_nodes lookup_nodes]. unfold bind at 1. rewrite Hrun.
    rewrite (select_node_id_grows _ _ _ _ _ Hg' Hsel).
    split; [exact Hrun'|]. split; [exact HV'|]. eapply grows_trans; eauto.
Qed.

(** The first pass on a store that already holds every candidate. *)
Lemma create_nodes_present (ns : list GraphNode) (paper_title : str) (m : gmap str uuid)
    (w : world) :
  (forall n, In n ns -> select_node_id (name n) (type n) (db w) <> None) ->
  create_nodes ns paper_title m w = (w, Ok (lookup_nodes (db w) ns m)).
Proof.
  revert m. induction ns as [|n ns IH]; intros m H; [reflexivity|].
  cbn [create_nodes lookup_nodes].
  destruct (select_node_id (name n) (type n) (db w)) as [i|] eqn:E.
  - unfold bind at 1. rewrite (get_or_create_node_found _ _ _ _ E).
    apply IH. intros; apply H; now right.
  - exfalso. apply (H n); [now left | exact E].
Qed.

(** The second pass on a store that already holds every resolved edge. *)
Lemma create_edges_present (es : list GraphEdge) (m : gmap str uuid) (skipped : Z)
    (w : world) :
  (forall e si ti, In e es ->
     m !! normalize_key (source e) = Some si ->
     m !! normalize_key (target e) = Some ti ->
     (1 <= count_edges si ti (relation e) (db w))%nat) ->
  create_edges es m skipped w
  = (w, Ok (skipped + Z.of_nat (length (List.filter (unresolved m) es)))).
Proof.
  revert skipped. induction es as [|e es IH]; intros skipped H.
  - cbn. now rewrite Z.add_0_r.
  - assert (forall e' si ti, In e' es ->
              m !! normalize_key (source e') = Some si ->
              m !! normalize_key (target e') = Some ti ->
              (1 <= count_edges si ti (relation e') (db w))%nat) as H'
      by (intros; eapply H; eauto; now right).
    cbn [create_edges List.filter].
    assert (unresolved m e = match m !! normalize_key (source e),
                                   m !! normalize_key (target e) with
                             | Some _, Some _ => false
                             | _, _ => true
                             end) as Hu by reflexivity.
    destruct (m !! normalize_key (source e)) as [si|] eqn:Es;
      [destruct (m !! normalize_key (target e)) as [ti|] eqn:Et|]; rewrite Hu.
    + specialize (H e si ti (or_introl eq_refl) Es Et).
      destruct (select_edge_id si ti (relation e) (db w)) as [j|] eqn:F.
      * unfold bind at 1. rewrite (create_edge_found _ _ _ _ _ F). apply IH, H'.
      * apply select_edge_id_None in F. lia.
    + rewrite (IH _ H'). f_equal. f_equal. cbn [length]. lia.
    + rewrite (IH _ H'). f_equal. f_equal. cbn [length]. lia.
Qed.

Lemma filter_at_most_one {A} (f : A -> bool) (l : list A) (a b : A) :
  (length (List.filter f l) <= 1)%nat -> In a l -> f a = true -> In b l -> f b = true ->
  a = b.
Proof.
  intros Hl Ha Hfa Hb Hfb.
  assert (In a (List.filter f l)) as Ia by (apply filter_In; auto).
  assert (In b (List.filter f l)) as Ib by (apply filter_In; auto).
  destruct (List.filter f l) as [|x [|y t]]; cbn in *; [tauto | | lia].
  destruct Ia as [<-|[]], Ib as [<-|[]]. reflexivity.
Qed.

(** In a store that satisfies the schema, a stored node is the one that the
    lookup by its name and type finds. *)
Lemma select_node_id_stored (s : store) (r : node_row) :
  Valid s -> In r (tbl_nodes s) ->
  select_node_id (node_name r) (node_type r) s = Some (node_id r).
Proof.
  intros HV Hin. unfold select_node_id.
  destruct (List.find _ _) as [r0|] eqn:F.
  - apply find_some in F as [Hin0 Hm0].
    change (node_matches (node_name r) (node_type r) r0 = true) in Hm0.
    assert (node_matches (node_name r) (node_type r) r = true) as Hm
      by now apply node_matches_iff.
    pose proof (valid_pairs _ HV (node_name r) (node_type r)) as Hle.
    now rewrite (filter_at_most_one _ _ r0 r Hle Hin0 Hm0 Hin Hm).
  - exfalso. pose proof (find_none _ _ F r Hin) as H. cbn in H.
    rewrite !bool_decide_eq_true_2 in H by reflexivity. discriminate.
Qed.




(** X8.  Consuming the same extraction result a second time, under any paper
    title, changes nothing in the store: no node, no edge and no identifier
    is added, and the tally is the same. *)
Theorem consume_again_same_store (g : ExtractionResult) (paper_title paper_title' : str)
    (w : world) :
  schema_valid (db w) = true ->
  exists w1 w2 k,
    consume g paper_title w = (w1, Ok k) /\
    consume g paper_title' w1 = (w2, Ok k) /\
    db w2 = db w1.
Proof.
  intros HV. apply schema_valid_Valid in HV.
  destruct (consume_spec g paper_title w HV)
    as (m & wn & w1 & Hcn & Hrun & HV1 & _ & _ & _ & _ & Hn1 & _ & Hc & Hk & _ & He & _).
  destruct (create_nodes_map (nodes g) paper_title ∅ w HV) as (wn' & Hcn' & _ & _).
  rewrite Hcn in Hcn'. injection Hcn' as <- Hm.
  rewrite <- (lookup_nodes_same_nodes _ _ _ _ Hn1) in Hm.
  set (k := Z.of_nat (length (List.filter (dangling (nodes g)) (edges g)))) in *.
  assert (create_nodes (nodes g) paper_title' ∅ w1 = (w1, Ok m)) as Hcn2.
  { rewrite Hm. apply create_nodes_present. intros n Hn E.
    apply select_node_id_None in E. rewrite (Hc n Hn) in E. discriminate. }
  assert (create_edges (edges g) m 0 w1 = (w1, Ok k)) as Hce2.
  { rewrite (create_edges_present _ _ _ _ He). f_equal. f_equal. unfold k.
    rewrite (filter_ext_length (unresolved m) (dangling (nodes g))); [lia|].
    intros; now apply unresolved_dangling. }
  exists w1. unfold consume at 2. unfold bind. rewrite Hcn2, Hce2.
  destruct (0 <? k); eexists _, k; (split; [exact Hrun|]); split; reflexivity.
Qed.

Lemma consume_again_same_store_witness :
  let g := {| nodes := [method_node "NeRF" None; method_node "3D-GS" None];
              edges := [ {| source := lit "3d gs"; target := lit "nerf";
                            relation := lit "IMPROVES_ON"; context := lit "a" |} ] |} in
  let w := {| db := reset_database; out := [] |} in
  schema_valid (db w) = true /\
  exists w1 w2 k,
    consume g (lit "first run") w = (w1, Ok k) /\
    consume g (lit "second run") w1 = (w2, Ok k) /\ db w2 = db w1.
Proof.
  intros g w. split; [reflexivity|].
  apply (consume_again_same_store g (lit "first run") (lit "second run") w eq_refl).
Defined.

(** X9.  When several candidate nodes of one extraction result have the same
    key, the lookup map keeps the last of them: the key of a candidate that
    no later candidate shares is mapped to the identifier under which that
    candidate's own name and type are stored. *)
Theorem create_nodes_last_candidate_wins (ns1 : list GraphNode) (n : GraphNode)
    (ns2 : list GraphNode) (paper_title : str) (w : world) :
  schema_valid (db w) = true ->
  forallb (fun n' => negb (bool_decide (normalize_key (name n') = normalize_key (name n))))
          ns2 = true ->
  exists w' (m : gmap str uuid) i,
    create_nodes (ns1 ++ n :: ns2) paper_title ∅ w = (w', Ok m) /\
    m !! normalize_key (name n) = Some i /\
    select_node_id (name n) (type n) (db w') = Some i.
Proof.
  intros HV Hlast. apply schema_valid_Valid in HV.
  destruct (create_nodes_spec (ns1 ++ n :: ns2) paper_title ∅ w HV)
    as (m & w' & Hrun & _ & _ & _ & _ & _ & Hc & _).
  { intros k i H. rewrite lookup_empty in H. discriminate. }
  destruct (create_nodes_map (ns1 ++ n :: ns2) paper_title ∅ w HV) as (w'' & Hrun' & _ & _).
  rewrite Hrun in Hrun'. injection Hrun' as <- Hm.
  destruct (select_node_id (name n) (type n) (db w')) as [i|] eqn:E.
  - exists w', m, i. split; [exact Hrun|]. split; [|exact E].
    rewrite Hm, lookup_nodes_app. cbn [lookup_nodes]. rewrite E.
    rewrite lookup_nodes_other; [apply lookup_insert_eq|].
    intros n' Hn'. rewrite forallb_forall in Hlast. specialize (Hlast n' Hn').
    apply negb_true_iff, bool_decide_eq_false in Hlast. exact Hlast.
  - apply select_node_id_None in E.
    rewrite (Hc n) in E; [discriminate|]. apply in_app_iff. right. now left.
Qed.

Lemma create_nodes_last_candidate_wins_witness :
  let first := {| name := lit "NeRF"; type := lit "Method"; description := None |} in
  let second := {| name := lit "nerf"; type := lit "Concept"; description := None |} in
  let w := {| db := reset_database; out := [] |} in
  schema_valid (db w) = true /\
  exists w' (m : gmap str uuid) i,
    create_nodes ([first] ++ second :: []) (lit "paper") ∅ w = (w', Ok m) /\
    m !! normalize_key (name second) = Some i /\
    select_node_id (lit "nerf") (lit "Concept") (db w') = Some i.
Proof.
  intros first second w. split; [reflexivity|].
  apply (create_nodes_last_candidate_wins [first] second [] (lit "paper") w);
    reflexivity.
Defined.

(** X10.  A node that is stored stays as it is when a later extraction
    result is consumed, also when that result names the same name and type
    with another description: its row is still in the table, it is still the
    only node with its name and type, and the lookup still finds its
    identifier. *)
Theorem consume_keeps_stored_nodes (g : ExtractionResult) (paper_title : str)
    (r : node_row) (w : world) :
  schema_valid (db w) = true ->
  In r (tbl_nodes (db w)) ->
  exists w' k,
    consume g paper_title w = (w', Ok k) /\
    In r (tbl_nodes (db w')) /\
    count_nodes (node_name r) (node_type r) (db w') = 1%nat /\
    select_node_id (node_name r) (node_type r) (db w') = Some (node_id r).
Proof.
  intros HV Hin. apply schema_valid_Valid in HV.
  destruct (consume_spec g paper_title w HV)
    as (m & w1 & w' & _ & Hrun & HV' & _ & Hg1 & Hg2 & _).
  assert (In r (tbl_nodes (db w'))) as Hin'
    by (eapply in_nodes_grows; [exact Hg2|]; eapply in_nodes_grows; eauto).
  eexists w', _. split; [exact Hrun|]. split; [exact Hin'|]. split.
  - pose proof (valid_pairs _ HV' (node_name r) (node_type r)).
    assert (1 <= count_nodes (node_name r) (node_type r) (db w'))%nat; [|lia].
    eapply filter_length_pos; [exact Hin'|]. now apply node_matches_iff.
  - now apply select_node_id_stored.
Qed.

Lemma consume_keeps_stored_nodes_witness :
  let s := add_node reset_database (lit "NeRF") (lit "Method")
                    [("description"%string, Some (lit "first"))] in
  let r := {| node_id := 1%nat; node_name := lit "NeRF"; node_type := lit "Method";
              node_properties := [("description"%string, Some (lit "first"))] |} in
  let g := {| nodes := [method_node "NeRF" (Some (lit "second"))]; edges := [] |} in
  let w := {| db := s; out := [] |} in
  schema_valid (db w) = true /\ In r (tbl_nodes (db w)) /\
  exists w' k, consume g (lit "later paper") w = (w', Ok k) /\ In r (tbl_nodes (db w')).
Proof.
  intros s r g w.
  assert (In r (tbl_nodes (db w))) as Hin by (left; reflexivity).
  split; [vm_compute; reflexivity|]. split; [exact Hin|].
  destruct (consume_keeps_stored_nodes g (lit "later paper") r w) as (w' & k & Hrun & Hin' & _);
    [vm_compute; reflexivity | exact Hin |].
  exists w', k. split; assumption.
Defined.

End Batches.

(** * Two documents that name one method in two spellings *)

Section TwoDocuments.

Lemma NoDup_map_inj_in {A B} (f : A -> B) (l : list A) (a b : A) :
  NoDup (map f l) -> In a l -> In b l -> f a = f b -> a = b.
Proof.
  induction l as [|x l IH]; intros Hnd Ha Hb E; [destruct Ha|].
  cbn in Hnd. inversion Hnd as [|y l' Hx Hl]; subst.
  destruct Ha as [<- | Ha], Hb as [<- | Hb]; auto.
  - exfalso. apply Hx. rewrite E. now apply list_elem_of_In, in_map.
  - exfalso. apply Hx. rewrite <- E. now apply list_elem_of_In, in_map.
Qed.

Lemma filter_length_two {A} (f : A -> bool) (l : list A) (a b : A) :
  In a l -> In b l -> a <> b -> f a = true -> f b = true ->
  (2 <= length (List.filter f l))%nat.
Proof.
  induction l as [|x l IH]; intros Ha Hb Hne Hfa Hfb; [destruct Ha|].
  cbn [List.filter]. destruct Ha as [-> | Ha], Hb as [-> | Hb].
  - congruence.
  - rewrite Hfa. cbn. pose proof (filter_length_pos f l b Hb Hfb). lia.
  - rewrite Hfb. cbn. pose proof (filter_length_pos f l a Ha Hfa). lia.
  - specialize (IH Ha Hb Hne Hfa Hfb). destruct (f x); cbn; lia.
Qed.

(** A new node takes an identifier that no stored node has. *)
Lemma ids_unique_add_node (s : store) (nm ty : str) (props : jsonb) :
  Valid s -> NoDup (map node_id (tbl_nodes s)) ->
  NoDup (map node_id (tbl_nodes (add_node s nm ty props))).
Proof.
  intros HV H. cbn [add_node tbl_nodes]. rewrite map_app. cbn [map node_id].
  apply NoDup_app. split; [exact H|]. split; [|apply NoDup_singleton].
  intros x Hx Hx'. apply list_elem_of_singleton in Hx'. subst x.
  apply list_elem_of_In, in_map_iff in Hx as (r & Hid & Hin).
  pose proof (valid_node_ids _ HV r Hin). lia.
Qed.

(** One file whose extraction result holds the candidate node [n], with no
    later candidate of the same key: whatever the other candidates and the
    edges are, the pass ends with [n] stored, and every edge that the map
    resolves is stored between two stored nodes with the keys of its two
    names, the one at an end whose key is that of [n] being the node stored
    for [n]. *)
Lemma process_file_resolves (d : dir_entry) (g : ExtractionResult)
    (before after : list GraphNode) (n : GraphNode) (w : world) :
  Valid (db w) -> NoDup (map node_id (tbl_nodes (db w))) ->
  readable d = true -> structured_llm d (prompt_of d) = Ok g ->
  nodes g = before ++ n :: after ->
  forallb (fun n' => negb (bool_decide (normalize_key (name n') = normalize_key (name n))))
          after = true ->
  exists w' i,
    process_file d w = (w', Ok tt) /\
    Valid (db w') /\ NoDup (map node_id (tbl_nodes (db w'))) /\ grows (db w) (db w') /\
    select_node_id (name n) (type n) (db w') = Some i /\
    (forall e, In e (edges g) -> dangling (nodes g) e = false ->
       exists rs rt,
         In rs (tbl_nodes (db w')) /\ In rt (tbl_nodes (db w')) /\
         normalize_key (node_name rs) = normalize_key (source e) /\
         normalize_key (node_name rt) = normalize_key (target e) /\
         (normalize_key (source e) = normalize_key (name n) -> node_id rs = i) /\
         (normalize_key (target e) = normalize_key (name n) -> node_id rt = i) /\
         (1 <= count_edges (node_id rs) (node_id rt) (relation e) (db w'))%nat).
Proof.
  intros HV HN Hr Hllm Hns Hafter.
  rewrite (process_file_extracted d g w Hr Hllm).
  set (wa := with_out w _).
  assert (Valid (db wa)) as HVa by exact HV.
  destruct (consume_spec g (paper_title_of d) wa HVa)
    as (m & w1 & w' & Hcn & Hrun & HV' & _ & Hg1 & Hg2 & _ & Hn' & _ & Hc & Hk & Hres & He & _).
  destruct (create_nodes_map (nodes g) (paper_title_of d) ∅ wa HVa) as (w1' & Hcn' & _ & _).
  rewrite Hcn in Hcn'. injection Hcn' as <- Hm.
  rewrite <- (lookup_nodes_same_nodes _ _ _ _ Hn') in Hm.
  assert (In n (nodes g)) as Hin by (rewrite Hns; apply in_app_iff; right; now left).
  destruct (select_node_id (name n) (type n) (db w')) as [i|] eqn:Esel.
  2:{ apply select_node_id_None in Esel. rewrite (Hc n Hin) in Esel. discriminate. }
  assert (m !! normalize_key (name n) = Some i) as Hmi.
  { rewrite Hm, Hns, lookup_nodes_app. cbn [lookup_nodes]. rewrite Esel.
    rewrite lookup_nodes_other; [apply lookup_insert_eq|].
    intros n' Hn'in. rewrite forallb_forall in Hafter. specialize (Hafter n' Hn'in).
    apply negb_true_iff, bool_decide_eq_false in Hafter. exact Hafter. }
  exists w', i. unfold bind. rewrite Hrun. split; [reflexivity|].
  split; [exact HV'|]. split.
  { refine (consume_preserves (fun s => NoDup (map node_id (tbl_nodes s)))
              g (paper_title_of d) wa w' _ _ _ HVa HN Hrun).
    - intros s n0 _ HVs _ Hs. now apply ids_unique_add_node.
    - intros s e si ti _ _ _ _ Hs. exact Hs. }
  split; [change (db w) with (db wa); eapply grows_trans; eauto|].
  split; [exact Esel|].
  intros e Hine Hd. rewrite <- (unresolved_dangling m _ _ Hk) in Hd. unfold unresolved in Hd.
  destruct (m !! normalize_key (source e)) as [si|] eqn:Es; [|discriminate].
  destruct (m !! normalize_key (target e)) as [ti|] eqn:Et; [|discriminate].
  destruct (Hres _ _ Es) as (rs & Hrs & <- & Hks).
  destruct (Hres _ _ Et) as (rt & Hrt & <- & Hkt).
  exists rs, rt. split_and!; eauto.
  - intros E. rewrite E in Es. congruence.
  - intros E. rewrite E in Et. congruence.
Qed.

(** C1, as the code has it.  Two files whose extraction results each hold,
    among any other candidates, a candidate node of type "Method", named
    "NeRF" in the first and "nerf" in the second, each being the last
    candidate of its result with the key "nerf"; the store satisfies the
    schema and its identifiers are distinct.  The store is looked up by the
    exact name, so after both files it holds two nodes of type "Method", one
    per name, under different identifiers.  Within each file's pass, every
    candidate edge whose two names are keys of candidates is stored between
    two stored nodes with those keys, and at each end whose key is "nerf"
    (an edge such as 3DGS -> nerf) that node is the file's own: the node
    named "NeRF" for the first file, the one named "nerf" for the second. *)
Theorem nerf_two_documents_two_nodes (d1 d2 : dir_entry) (g1 g2 : ExtractionResult)
    (before1 after1 before2 after2 : list GraphNode) (descr1 descr2 : option str)
    (w : world) :
  schema_valid (db w) = true -> ids_unique (db w) = true ->
  readable d1 = true -> readable d2 = true ->
  structured_llm d1 (prompt_of d1) = Ok g1 ->
  structured_llm d2 (prompt_of d2) = Ok g2 ->
  nodes g1 = before1 ++ method_node "NeRF" descr1 :: after1 ->
  nodes g2 = before2 ++ method_node "nerf" descr2 :: after2 ->
  forallb (fun n => negb (bool_decide (normalize_key (name n) = lit "nerf"))) after1 = true ->
  forallb (fun n => negb (bool_decide (normalize_key (name n) = lit "nerf"))) after2 = true ->
  exists w' i1 i2,
    main_loop [d1; d2] w = (w', Ok tt) /\
    i1 <> i2 /\
    select_node_id (lit "NeRF") (lit "Method") (db w') = Some i1 /\
    select_node_id (lit "nerf") (lit "Method") (db w') = Some i2 /\
    count_nodes (lit "NeRF") (lit "Method") (db w') = 1%nat /\
    count_nodes (lit "nerf") (lit "Method") (db w') = 1%nat /\
    (2 <= count_type (lit "Method") (db w'))%nat /\
    (forall e, In e (edges g1) -> dangling (nodes g1) e = false ->
       exists rs rt,
         In rs (tbl_nodes (db w')) /\ In rt (tbl_nodes (db w')) /\
         normalize_key (node_name rs) = normalize_key (source e) /\
         normalize_key (node_name rt) = normalize_key (target e) /\
         (normalize_key (source e) = lit "nerf" -> node_id rs = i1) /\
         (normalize_key (target e) = lit "nerf" -> node_id rt = i1) /\
         (1 <= count_edges (node_id rs) (node_id rt) (relation e) (db w'))%nat) /\
    (forall e, In e (edges g2) -> dangling (nodes g2) e = false ->
       exists rs rt,
         In rs (tbl_nodes (db w')) /\ In rt (tbl_nodes (db w')) /\
         normalize_key (node_name rs) = normalize_key (source e) /\
         normalize_key (node_name rt) = normalize_key (target e) /\
         (normalize_key (source e) = lit "nerf" -> node_id rs = i2) /\
         (normalize_key (target e) = lit "nerf" -> node_id rt = i2) /\
         (1 <= count_edges (node_id rs) (node_id rt) (relation e) (db w'))%nat).
Proof.
  intros HV HN Hr1 Hr2 Hl1 Hl2 Hn1 Hn2 Ha1 Ha2.
  apply schema_valid_Valid in HV. apply bool_decide_eq_true in HN.
  destruct (process_file_resolves d1 g1 before1 after1 (method_node "NeRF" descr1) w
              HV HN Hr1 Hl1 Hn1 Ha1)
    as (w1 & i1 & Hrun1 & HV1 & HN1 & Hg1 & Hs1 & He1).
  destruct (process_file_resolves d2 g2 before2 after2 (method_node "nerf" descr2) w1
              HV1 HN1 Hr2 Hl2 Hn2 Ha2)
    as (w2 & i2 & Hrun2 & HV2 & HN2 & Hg2 & Hs2 & He2).
  cbn [method_node name type] in Hs1, Hs2.
  change (normalize_key (name (method_node "NeRF" descr1))) with (lit "nerf") in He1.
  change (normalize_key (name (method_node "nerf" descr2))) with (lit "nerf") in He2.
  pose proof (select_node_id_grows _ _ _ _ _ Hg2 Hs1) as Hs1'.
  destruct (select_node_id_Some _ _ _ _ Hs1') as (r1 & Hin1 & Hid1 & Hnm1 & Hty1).
  destruct (select_node_id_Some _ _ _ _ Hs2) as (r2 & Hin2 & Hid2 & Hnm2 & Hty2).
  assert (r1 <> r2) as Hne.
  { intros E. rewrite E, Hnm2 in Hnm1. vm_compute in Hnm1. discriminate. }
  exists w2, i1, i2.
  split; [cbn [main_loop]; unfold bind; rewrite Hrun1, Hrun2; reflexivity|].
  split.
  { intros E. apply Hne. apply (NoDup_map_inj_in node_id _ r1 r2 HN2 Hin1 Hin2). congruence. }
  split; [exact Hs1'|]. split; [exact Hs2|].
  split.
  { pose proof (valid_pairs _ HV2 (lit "NeRF") (lit "Method")).
    assert (1 <= count_nodes (lit "NeRF") (lit "Method") (db w2))%nat; [|lia].
    apply (filter_length_pos _ _ r1 Hin1). now apply node_matches_iff. }
  split.
  { pose proof (valid_pairs _ HV2 (lit "nerf") (lit "Method")).
    assert (1 <= count_nodes (lit "nerf") (lit "Method") (db w2))%nat; [|lia].
    apply (filter_length_pos _ _ r2 Hin2). now apply node_matches_iff. }
  split.
  { apply (filter_length_two _ _ r1 r2 Hin1 Hin2 Hne); now apply bool_decide_eq_true. }
  split; [|exact He2].
  intros e Hin Hd.
  destruct (He1 e Hin Hd) as (rs & rt & Hrs & Hrt & Hks & Hkt & His & Hit & Hc).
  exists rs, rt.
  pose proof (count_edges_grows _ _ (node_id rs) (node_id rt) (relation e) Hg2).
  split; [eapply in_nodes_grows; eauto|]. split; [eapply in_nodes_grows; eauto|].
  split; [exact Hks|]. split; [exact Hkt|]. split; [exact His|]. split; [exact Hit|]. lia.
Qed.

Lemma nerf_two_documents_two_nodes_witness :
  let text := repeat "a"%char 600 in
  let gs := {| name := lit "3DGS"; type := lit "Method"; description := None |} in
  let psnr := {| name := lit "PSNR"; type := lit "Metric"; description := None |} in
  let e1 := {| source := lit "3DGS"; target := lit "nerf"; relation := lit "IMPROVES_ON";
               context := lit "one" |} in
  let e2 := {| source := lit "NeRF"; target := lit "psnr"; relation := lit "EVALUATED_ON";
               context := lit "two" |} in
  let g1 := {| nodes := [gs; method_node "NeRF" None]; edges := [e1] |} in
  let g2 := {| nodes := [method_node "nerf" None; psnr]; edges := [e2] |} in
  let d1 := {| filename := lit "first.pdf"; pdf_reader := Ok [PageText text];
               structured_llm := fun _ => Ok g1 |} in
  let d2 := {| filename := lit "second.pdf"; pdf_reader := Ok [PageText text];
               structured_llm := fun _ => Ok g2 |} in
  let w := {| db := reset_database; out := [] |} in
  schema_valid (db w) = true /\ ids_unique (db w) = true /\
  readable d1 = true /\ readable d2 = true /\
  exists w' i1 i2,
    main_loop [d1; d2] w = (w', Ok tt) /\ i1 <> i2 /\
    select_node_id (lit "NeRF") (lit "Method") (db w') = Some i1 /\
    select_node_id (lit "nerf") (lit "Method") (db w') = Some i2 /\
    (exists rs, In rs (tbl_nodes (db w')) /\
                normalize_key (node_name rs) = lit "3dgs" /\
                (1 <= count_edges (node_id rs) i1 (lit "IMPROVES_ON") (db w'))%nat) /\
    (exists rt, In rt (tbl_nodes (db w')) /\
                normalize_key (node_name rt) = lit "psnr" /\
                (1 <= count_edges i2 (node_id rt) (lit "EVALUATED_ON") (db w'))%nat).
Proof.
  intros text gs psnr e1 e2 g1 g2 d1 d2 w.
  assert (readable d1 = true) as Hr1 by (vm_compute; reflexivity).
  assert (readable d2 = true) as Hr2 by (vm_compute; reflexivity).
  assert (ids_unique (db w) = true) as HN by (vm_compute; reflexivity).
  split; [reflexivity|]. split; [exact HN|]. split; [exact Hr1|]. split; [exact Hr2|].
  destruct (nerf_two_documents_two_nodes d1 d2 g1 g2 [gs] [] [] [psnr] None None w
              eq_refl HN Hr1 Hr2 eq_refl eq_refl eq_refl eq_refl eq_refl eq_refl)
    as (w' & i1 & i2 & H1 & H2 & H3 & H4 & _ & _ & _ & He1 & He2).
  exists w', i1, i2.
  split; [exact H1|]. split; [exact H2|]. split; [exact H3|]. split; [exact H4|]. split.
  - destruct (He1 e1 (or_introl eq_refl) eq_refl)
      as (rs & rt & Hrs & _ & Hks & _ & _ & Hit & Hc).
    rewrite (Hit eq_refl) in Hc. exists rs. split; [exact Hrs|]. split; [exact Hks | exact Hc].
  - destruct (He2 e2 (or_introl eq_refl) eq_refl)
      as (rs & rt & _ & Hrt & _ & Hkt & His & _ & Hc).
    rewrite (His eq_refl) in Hc. exists rt. split; [exact Hrt|]. split; [exact Hkt | exact Hc].
Defined.

(** C1 as stated fails: after the two files the store holds two nodes of
    type "Method", not one. *)
Lemma nerf_two_documents_not_one_node :
  let text := repeat "a"%char 600 in
  let d1 := {| filename := lit "first.pdf"; pdf_reader := Ok [PageText text];
               structured_llm := fun _ => Ok {| nodes := [method_node "NeRF" None];
                                                edges := [] |} |} in
  let d2 := {| filename := lit "second.pdf"; pdf_reader := Ok [PageText text];
               structured_llm := fun _ => Ok {| nodes := [method_node "nerf" None];
                                                edges := [] |} |} in
  let w' := fst (main_loop [d1; d2] {| db := reset_database; out := [] |}) in
  count_type (lit "Method") (db w') = 2%nat /\
  count_type (lit "Method") (db w') <> 1%nat.
Proof. vm_compute. split; [reflexivity | discriminate]. Qed.

(** Why the candidate has to be the last one with its key: a later candidate
    with the key "nerf" takes the key in the map, and the edge 3DGS -> NeRF
    is stored to that later node, not to the node named "NeRF". *)
Example nerf_later_candidate_takes_the_key :
  let concept := {| name := lit "nerf"; type := lit "Concept"; description := None |} in
  let gs := {| name := lit "3DGS"; type := lit "Method"; description := None |} in
  let e := {| source := lit "3DGS"; target := lit "NeRF"; relation := lit "IMPROVES_ON";
              context := lit "one" |} in
  let g := {| nodes := [method_node "NeRF" None; concept; gs]; edges := [e] |} in
  let w' := fst (consume g (lit "paper") {| db := reset_database; out := [] |}) in
  select_node_id (lit "NeRF") (lit "Method") (db w') = Some 1%nat /\
  select_node_id (lit "nerf") (lit "Concept") (db w') = Some 2%nat /\
  select_node_id (lit "3DGS") (lit "Method") (db w') = Some 3%nat /\
  count_edges 3 2 (lit "IMPROVES_ON") (db w') = 1%nat /\
  count_edges 3 1 (lit "IMPROVES_ON") (db w') = 0%nat.
Proof. vm_compute. repeat split. Qed.

End TwoDocuments.

(** * The text of a document *)

Section DocumentText.

(** Replacing a one-character pattern by nothing removes the character. *)
Lemma replace_delete (a : ascii) (s : str) :
  replace [a] [] s = List.filter (fun c => negb (bool_decide (a = c))) s.
Proof.
  unfold replace. induction s as [|c r IH]; [reflexivity|].
  cbn [replace_from startswith length Nat.sub List.filter app].
  rewrite andb_true_r. destruct (bool_decide (a = c)); cbn; now rewrite IH.
Qed.

Lemma Forall_lstrip (P : ascii -> Prop) (s : str) : Forall P s -> Forall P (lstrip s).
Proof.
  induction 1 as [|c r Hc Hr IH]; [constructor|]. cbn.
  destruct (isspace c); [exact IH | now constructor].
Qed.

Lemma Forall_rstrip (P : ascii -> Prop) (s : str) : Forall P s -> Forall P (rstrip s).
Proof.
  induction 1 as [|c r Hc Hr IH]; [constructor|]. rewrite rstrip_cons.
  destruct (has_visible (c :: r)); now constructor.
Qed.

Lemma cleanup_plain (t : str) : Forall (fun c => c <> nul /\ c <> tab) (cleanup t).
Proof.
  unfold cleanup. apply Forall_rstrip, Forall_lstrip.
  change (lit " ") with [" "%char]. rewrite replace_char, replace_delete.
  induction t as [|c t IH]; [constructor|]. cbn [List.filter].
  destruct (bool_decide (nul = c)) eqn:E; cbn [negb map]; [exact IH|].
  apply bool_decide_eq_false in E. constructor; [|exact IH].
  destruct (bool_decide (tab = c)) eqn:F.
  - split; discriminate.
  - apply bool_decide_eq_false in F. split; congruence.
Qed.

Lemma truncate_plain (t : str) :
  Forall (fun c => c <> nul /\ c <> tab) t ->
  Forall (fun c => c <> nul /\ c <> tab) (truncate t).
Proof.
  intros H. unfold truncate. destruct (len t <=? 40000); [exact H|].
  apply Forall_app. split; [now apply Forall_take|].
  apply Forall_app. split; [|now apply Forall_drop].
  unfold separator. repeat (constructor; [split; discriminate|]). constructor.
Qed.

Lemma truncate_len_bound (t : str) : len (truncate t) <= Z.max (len t) 40043.
Proof.
  destruct (Z.le_gt_cases (len t) 40000) as [Hle | Hgt].
  - unfold truncate. destruct (Z.leb_spec (len t) 40000); lia.
  - rewrite truncate_long, !len_app, len_slice_to, len_slice_last, len_separator; lia.
Qed.

Lemma process_pdf_pages (file_path : str) (pages : list page) (w : world) :
  process_pdf file_path (Ok pages) w
  = ({| db := db w; out := out w ++ page_warnings file_path pages |},
     Ok (if len (cleanup (pages_text pages)) <? 500 then []
         else truncate (cleanup (pages_text pages)))).
Proof.
  unfold process_pdf, bind. rewrite read_pages_spec. cbn [app].
  destruct (len (cleanup (pages_text pages)) <? 500); reflexivity.
Qed.

Lemma pages_text_app (a b : list page) : pages_text (a ++ b) = pages_text a ++ pages_text b.
Proof.
  induction a as [|[[|c t]|] a IH]; cbn [app pages_text].
  - reflexivity.
  - exact IH.
  - rewrite IH. now rewrite <- !app_assoc.
  - exact IH.
Qed.

Lemma page_warnings_app (file_path : str) (a b : list page) :
  page_warnings file_path (a ++ b) = page_warnings file_path a ++ page_warnings file_path b.
Proof. induction a as [|[t|] a IH]; cbn; [reflexivity | exact IH | now rewrite IH]. Qed.

(** X11.  For a file that can be opened, [process_pdf] never raises and does
    not touch the store.  The text it returns is empty or has between 500 and
    40043 characters, and holds no null byte and no tab. *)
Theorem process_pdf_text_bounds (file_path : str) (pages : list page) (w : world) :
  exists t,
    process_pdf file_path (Ok pages) w
    = ({| db := db w; out := out w ++ page_warnings file_path pages |}, Ok t) /\
    (t = [] \/ 500 <= len t <= 40043) /\
    Forall (fun c => c <> nul /\ c <> tab) t.
Proof.
  eexists. split; [apply process_pdf_pages|].
  set (t := cleanup (pages_text pages)).
  destruct (Z.ltb_spec (len t) 500) as [Hlt | Hge].
  - split; [now left | constructor].
  - split; [|apply truncate_plain, cleanup_plain]. right.
    pose proof (truncate_len_bound t).
    destruct (Z.le_gt_cases (len t) 40000) as [Hle | Hgt].
    + unfold truncate in *. destruct (Z.leb_spec (len t) 40000); lia.
    + rewrite truncate_long, !len_app, len_slice_to, len_slice_last, len_separator; lia.
Qed.

(** X12.  A page whose text extraction raises costs one warning and nothing
    else: the text that [process_pdf] returns is the one it returns without
    that page, and the pages after it are still read.  A page with an empty
    text leaves no trace at all. *)
Theorem process_pdf_skips_failing_page (file_path : str) (before after : list page)
    (w : world) :
  let with_failure := process_pdf file_path (Ok (before ++ PageRaises :: after)) w in
  let without := process_pdf file_path (Ok (before ++ after)) w in
  snd with_failure = snd without /\
  out (fst with_failure)
  = out w ++ page_warnings file_path before
    ++ PrintWarningPage file_path :: page_warnings file_path after /\
  out (fst without) = out w ++ page_warnings file_path before ++ page_warnings file_path after /\
  process_pdf file_path (Ok (before ++ PageText [] :: after)) w = without.
Proof.
  cbn zeta. rewrite !process_pdf_pages, !pages_text_app, !page_warnings_app.
  cbn [pages_text page_warnings fst snd out]. auto.
Qed.

(** X13.  A document whose cleaned-up text has between 500 and 40000
    characters reaches the collaborator whole: [process_pdf] returns that
    text and [extract_graph] puts all of it into the prompt. *)
Theorem whole_text_reaches_prompt (llm : prompt -> res ExtractionResult)
    (file_path paper_title : str) (pages : list page) (w : world) :
  500 <= len (cleanup (pages_text pages)) <= 40000 ->
  let text := cleanup (pages_text pages) in
  let p := {| prompt_title := paper_title; prompt_text := text |} in
  exists w1,
    process_pdf file_path (Ok pages) w = (w1, Ok text) /\
    extract_graph llm text paper_title w1
    = ({| db := db w;
          out := out w ++ page_warnings file_path pages
                 ++ [PrintAnalyzing paper_title; InvokeLlm p] |}, llm p).
Proof.
  intros H text p. fold text in H. eexists. rewrite process_pdf_pages. fold text.
  destruct (Z.ltb_spec (len text) 500); [lia|].
  assert (truncate text = text) as ->.
  { unfold truncate. destruct (Z.leb_spec (len text) 40000); [reflexivity | lia]. }
  split; [reflexivity|].
  unfold extract_graph, bind, print, ret, raise. cbn [db out].
  assert (slice_to 40000 text = text) as ->.
  { unfold slice_to. apply take_ge. unfold len in H. lia. }
  fold p. rewrite <- !app_assoc. cbn [app]. destruct (llm p); reflexivity.
Qed.

Lemma whole_text_reaches_prompt_witness :
  let pages := [PageText (repeat "a"%char 700)] in
  500 <= len (cleanup (pages_text pages)) <= 40000 /\
  exists w1,
    process_pdf (lit "./papers/a.pdf") (Ok pages) {| db := reset_database; out := [] |}
    = (w1, Ok (cleanup (pages_text pages))).
Proof.
  intros pages.
  assert (500 <= len (cleanup (pages_text pages)) <= 40000) as H
    by (vm_compute; split; discriminate).
  split; [exact H|].
  destruct (whole_text_reaches_prompt (fun _ => Raise LlmError) (lit "./papers/a.pdf")
              (lit "a") pages {| db := reset_database; out := [] |} H) as (w1 & Hrun & _).
  exists w1. exact Hrun.
Defined.

End DocumentText.

(** * Whole runs *)

Section Runs.












Lemma startswith_app (p r : str) : startswith p (p ++ r) = true.
Proof.
  induction p as [|a p IH]; [reflexivity|]. cbn.
  now rewrite bool_decide_eq_true_2, IH.
Qed.

Lemma replace_suffix_pdf (stem : str) :
  forallb (fun c => negb (bool_decide (c = "."%char))) stem = true ->
  replace (lit ".pdf") [] (stem ++ lit ".pdf") = stem.
Proof.
  unfold replace. induction stem as [|c stem IH]; intros H; [reflexivity|].
  cbn in H. apply andb_true_iff in H as [Hc Hs].
  apply negb_true_iff, bool_decide_eq_false in Hc.
  cbn [app replace_from]. change (lit ".pdf") with ("."%char :: lit "pdf") at 1.
  cbn [startswith]. rewrite bool_decide_eq_false_2 by congruence. cbn [andb].
  now rewrite (IH Hs).
Qed.

(** X16.  A directory entry whose name is a stem without a dot followed by
    ".pdf" is taken as a PDF file, and its paper title is the stem with every
    underscore turned into a space. *)
Theorem paper_title_of_plain_name (d : dir_entry) (stem : str) :
  filename d = stem ++ lit ".pdf" ->
  forallb (fun c => negb (bool_decide (c = "."%char))) stem = true ->
  endswith (filename d) (lit ".pdf") = true /\
  paper_title_of d = map (fun c => if bool_decide ("_"%char = c) then " "%char else c) stem.
Proof.
  intros E H. unfold paper_title_of. rewrite E. split.
  - unfold endswith. rewrite rev_app_distr. apply startswith_app.
  - rewrite (replace_suffix_pdf stem H).
    change (lit "_") with ["_"%char]. change (lit " ") with [" "%char].
    apply replace_char.
Qed.

Lemma paper_title_of_plain_name_witness :
  let d := {| filename := lit "gaussian_splatting_2023.pdf"; pdf_reader := Ok [];
              structured_llm := fun _ => Raise LlmError |} in
  paper_title_of d = lit "gaussian splatting 2023".
Proof.
  intros d.
  destruct (paper_title_of_plain_name d (lit "gaussian_splatting_2023") eq_refl eq_refl)
    as [_ H].
  rewrite H. vm_compute. reflexivity.
Defined.

Lemma main_loop_continues_after_llm_error_witness :
  let d := {| filename := lit "paper.pdf";
              pdf_reader := Ok [PageText (repeat "a"%char 600)];
              structured_llm := fun _ => Raise LlmError |} in
  let w := {| db := reset_database; out := [] |} in
  readable d = true /\
  db (fst (main_loop [d] w)) = reset_database /\ snd (main_loop [d] w) = Ok tt.
Proof.
  intros d w.
  assert (readable d = true) as Hr by (vm_compute; reflexivity).
  split; [exact Hr|].
  rewrite (main_loop_continues_after_llm_error d LlmError [] w Hr eq_refl).
  split; reflexivity.
Defined.

End Runs.

(** * The status script *)

Section Status.

Lemma filter_by_id_unique (nodes : list node_row) (i : uuid) :
  NoDup (map node_id nodes) ->
  (length (List.filter (fun n => bool_decide (i = node_id n)) nodes) <= 1)%nat.
Proof.
  induction nodes as [|r nodes IH]; intros Hnd; [cbn; lia|].
  cbn [map] in Hnd. apply NoDup_cons in Hnd as [Hnot Hnd]. cbn [List.filter].
  specialize (IH Hnd). destruct (bool_decide (i = node_id r)) eqn:E; [|exact IH].
  apply bool_decide_eq_true in E. subst i. cbn [length].
  assert (length (List.filter (fun n => bool_decide (node_id r = node_id n)) nodes) = 0%nat)
    as ->; [|lia].
  apply filter_length_zero. intros x Hx. apply bool_decide_eq_false. intros Heq.
  apply Hnot. apply list_elem_of_In, in_map_iff. exists x. split; [congruence | exact Hx].
Qed.

Lemma filter_by_id_stored (s : store) (i : uuid) :
  ids_unique s = true -> node_exists i s = true ->
  length (List.filter (fun n => bool_decide (i = node_id n)) (tbl_nodes s)) = 1%nat.
Proof.
  intros Hu He. unfold ids_unique in Hu. apply bool_decide_eq_true in Hu.
  pose proof (filter_by_id_unique _ i Hu) as Hle.
  apply node_exists_iff in He as (r & Hr & Hi).
  assert (1 <= length (List.filter (fun n => bool_decide (i = node_id n)) (tbl_nodes s)))%nat;
    [|lia].
  eapply filter_length_pos; [exact Hr|]. apply bool_decide_eq_true. congruence.
Qed.

Lemma flat_map_length_one {A B} (f : A -> list B) (l : list A) :
  (forall x, In x l -> length (f x) = 1%nat) -> length (flat_map f l) = length l.
Proof.
  induction l as [|a l IH]; intros H; [reflexivity|]. cbn.
  rewrite length_app, (H a) by (now left). rewrite IH; [lia|].
  intros; apply H; now right.
Qed.

Lemma edges_with_names_length (s : store) :
  schema_valid s = true -> ids_unique s = true ->
  length (CheckDb.edges_with_names s) = length (tbl_edges s).
Proof.
  intros HV Hu. apply schema_valid_Valid in HV. unfold CheckDb.edges_with_names.
  apply flat_map_length_one. intros e He. destruct (valid_ends _ HV e He) as [Hs Ht].
  pose proof (filter_by_id_stored s _ Hu Hs) as H1.
  pose proof (filter_by_id_stored s _ Hu Ht) as H2.
  destruct (List.filter _ (tbl_nodes s)) as [|a [|? ?]] in H1 |- *; try discriminate.
  cbn. rewrite app_nil_r, length_map. exact H2.
Qed.

(** X18.  On a store that satisfies the schema and has no two nodes with the
    same identifier, the join of [check_database] yields every edge exactly
    once.  So the script prints a sample relationship for each of the first
    five edges, and it prints "No edges found" exactly when the store holds
    nodes and no edge. *)
Theorem check_database_lists_edges_once (s : store) :
  schema_valid s = true -> ids_unique s = true ->
  length (CheckDb.edges_with_names s) = length (tbl_edges s) /\
  length (List.filter CheckDb.is_sample_relationship (CheckDb.check_database (Ok s)))
  = Nat.min 5 (length (tbl_edges s)) /\
  (In CheckDb.NoEdgesFound (CheckDb.check_database (Ok s))
   <-> tbl_nodes s <> [] /\ tbl_edges s = []).
Proof.
  intros HV Hu. pose proof (edges_with_names_length s HV Hu) as Hlen.
  split; [exact Hlen|].
  assert (forall rows : list (str * str * str),
            List.filter CheckDb.is_sample_relationship
              (map (fun row => CheckDb.SampleRelationship row.1.1 row.1.2 row.2) rows)
            = map (fun row => CheckDb.SampleRelationship row.1.1 row.1.2 row.2) rows) as Hrows.
  { induction rows as [|x rows IH]; [reflexivity|]. cbn. now rewrite IH. }
  assert (forall l : list node_row,
            List.filter CheckDb.is_sample_relationship
              (map (fun r => CheckDb.SampleNode (node_name r) (node_type r)) l) = []) as Hnodes.
  { induction l as [|x l IH]; [reflexivity|]. cbn. exact IH. }
  assert (forall l : list node_row,
            ~ In CheckDb.NoEdgesFound
                (map (fun r => CheckDb.SampleNode (node_name r) (node_type r)) l)) as Hn1.
  { intros l H. apply in_map_iff in H as (? & ? & _). discriminate. }
  assert (forall rows : list (str * str * str),
            ~ In CheckDb.NoEdgesFound
                (map (fun row => CheckDb.SampleRelationship row.1.1 row.1.2 row.2) rows)) as Hn2.
  { intros l H. apply in_map_iff in H as (? & ? & _). discriminate. }
  unfold CheckDb.check_database.
  destruct (tbl_nodes s) as [|r nodes] eqn:En.
  - assert (tbl_edges s = []) as Ee.
    { destruct (tbl_edges s) as [|e es] eqn:Ee; [reflexivity|]. exfalso.
      apply schema_valid_Valid in HV.
      destruct (valid_ends _ HV e) as [Hs _]; [rewrite Ee; now left|].
      apply node_exists_iff in Hs as (x & Hx & _). rewrite En in Hx. destruct Hx. }
    rewrite Ee. cbn. split; [reflexivity|]. split; [|intros [H _]; congruence].
    intros [H|[H|[H|[H|[]]]]]; discriminate.
  - cbn [length app].
    assert (length (take 5 (CheckDb.edges_with_names s)) = Nat.min 5 (length (tbl_edges s)))
      as Hr by (rewrite length_take, Hlen; reflexivity).
    revert Hr. generalize (take 5 (CheckDb.edges_with_names s)). intros rows Hr.
    split.
    + cbn [List.filter CheckDb.is_sample_relationship app].
      rewrite List.filter_app, Hnodes.
      cbn [List.filter CheckDb.is_sample_relationship app].
      rewrite List.filter_app, Hrows.
      assert (List.filter CheckDb.is_sample_relationship
                match rows with [] => [CheckDb.NoEdgesFound] | _ :: _ => [] end = []) as ->
        by (destruct rows; reflexivity).
      cbn [app]. now rewrite length_map.
    + destruct rows as [|row rows'].
      * assert (tbl_edges s = []) as Ee.
        { destruct (tbl_edges s); [reflexivity|]. cbn in Hr. discriminate. }
        split; [intros _; split; [discriminate | exact Ee]|]. intros _.
        rewrite ?in_app_iff; cbn [In]; rewrite ?in_app_iff; cbn [In app].
        do 6 right. now left.
      * split; [|intros [_ Ee]; rewrite Ee in Hr; cbn in Hr; discriminate].
        intros H. exfalso.
        rewrite ?in_app_iff in H; cbn [In] in H; rewrite ?in_app_iff in H; cbn [In] in H.
        repeat match goal with H : _ \/ _ |- _ => destruct H end;
          try discriminate; try contradiction;
          try (eapply Hn1; eassumption).
        eapply (Hn2 (row :: rows')). eassumption.
Qed.

Lemma check_database_lists_edges_once_witness :
  let s := add_edge (add_node (add_node reset_database (lit "NeRF") (lit "Method") [])
                              (lit "PSNR") (lit "Metric") [])
                    1 2 (lit "EVALUATED_ON") (lit "We report PSNR.") in
  schema_valid s = true /\ ids_unique s = true /\
  length (CheckDb.edges_with_names s) = length (tbl_edges s).
Proof.
  intros s.
  assert (schema_valid s = true) as HV by (vm_compute; reflexivity).
  assert (ids_unique s = true) as Hu by (vm_compute; reflexivity).
  split; [exact HV|]. split; [exact Hu|].
  apply (proj1 (check_database_lists_edges_once s HV Hu)).
Defined.

End Status.

(** * The graph of the visualisation *)

Section Drawing.

Import Visualize.

(** After a sequence of insertions, a key holds the value of the last element
    that was inserted under it. *)
Lemma fold_left_insert_last {A V} `{Countable K} (key : A -> K) (val : A -> V)
    (l : list A) (m0 : gmap K V) (k : K) :
  fold_left (fun m x => <[key x := val x]> m) l m0 !! k
  = match last (List.filter (fun x => bool_decide (key x = k)) l) with
    | Some x => Some (val x)
    | None => m0 !! k
    end.
Proof.
  induction l as [|x l IH] using rev_ind; [reflexivity|].
  rewrite fold_left_app, List.filter_app. cbn [fold_left List.filter].
  destruct (bool_decide (key x = k)) eqn:E.
  - apply bool_decide_eq_true in E. subst k. now rewrite lookup_insert_eq, last_snoc.
  - apply bool_decide_eq_false in E. rewrite lookup_insert_ne by exact E.
    now rewrite app_nil_r.
Qed.

Lemma last_filter_in {A} (f : A -> bool) (l : list A) (x : A) :
  last (List.filter f l) = Some x -> In x l /\ f x = true.
Proof.
  intros H. apply last_Some in H as [l' E].
  apply filter_In. rewrite E. apply in_app_iff. right. now left.
Qed.

Lemma last_filter_some {A} (f : A -> bool) (l : list A) (x : A) :
  In x l -> f x = true -> is_Some (last (List.filter f l)).
Proof.
  intros Hin Hf. apply last_is_Some. intros E.
  assert (In x (List.filter f l)) as H by (apply filter_In; auto).
  rewrite E in H. destruct H.
Qed.

Lemma add_nodes_nodes (nodes : list node_row) (G : DiGraph) :
  graph_nodes (add_nodes nodes G)
  = fold_left (fun m r => <[node_name r := Some (attrs_of r)]> m) nodes (graph_nodes G)
  /\ graph_edges (add_nodes nodes G) = graph_edges G.
Proof.
  revert G. induction nodes as [|r nodes IH]; intros G; [split; reflexivity|].
  unfold add_nodes in *. cbn [fold_left]. destruct (IH (add_node G (node_name r) (attrs_of r)))
    as [H1 H2]. split; assumption.
Qed.

Lemma id_to_name_stored (nodes : list node_row) (i : uuid) (nm : str) :
  id_to_name nodes !! i = Some nm ->
  exists r, In r nodes /\ node_id r = i /\ node_name r = nm.
Proof.
  unfold id_to_name. rewrite (fold_left_insert_last node_id node_name).
  destruct (last _) as [r|] eqn:E; [|now rewrite lookup_empty].
  intros [= <-]. apply last_filter_in in E as [Hin Hi].
  apply bool_decide_eq_true in Hi. eauto.
Qed.

Lemma touch_node_present (m : gmap str (option node_attrs)) (k : str) :
  is_Some (m !! k) -> touch_node m k = m.
Proof. intros [x Hx]. unfold touch_node. now rewrite Hx. Qed.

Lemma add_edges_nodes (names : gmap uuid str) (edges : list edge_row) (G G' : DiGraph) :
  (forall e a b, In e edges -> endpoints names e = Some (a, b) ->
     is_Some (graph_nodes G !! a) /\ is_Some (graph_nodes G !! b)) ->
  add_edges names edges G = Some G' ->
  graph_nodes G' = graph_nodes G.
Proof.
  revert G. induction edges as [|e edges IH]; intros G Hp Hrun.
  - cbn in Hrun. now injection Hrun as <-.
  - cbn [add_edges] in Hrun.
    assert (forall e' a b, In e' edges -> endpoints names e' = Some (a, b) ->
              is_Some (graph_nodes G !! a) /\ is_Some (graph_nodes G !! b)) as Hp'
      by (intros; eapply Hp; eauto; now right).
    destruct (endpoints names e) as [[a b]|] eqn:Ee; [|now apply IH].
    destruct (edge_citation_context e) as [c|]; [|discriminate].
    destruct (Hp e a b (or_introl eq_refl) Ee) as [Ha Hb].
    assert (graph_nodes (add_edge G a b {| attr_hover := hover_text (edge_type e) c;
                                           attr_text := edge_type e |})
            = graph_nodes G) as Hn.
    { cbn [add_edge graph_nodes]. rewrite (touch_node_present _ a Ha).
      now apply touch_node_present. }
    rewrite (IH _ ltac:(rewrite Hn; exact Hp') Hrun). exact Hn.
Qed.

Lemma add_edges_edges (names : gmap uuid str) (edges : list edge_row) (G G' : DiGraph)
    (k : str * str) :
  add_edges names edges G = Some G' ->
  graph_edges G' !! k
  = match last (List.filter (fun e => bool_decide (endpoints names e = Some k)) edges) with
    | Some e => Some (edge_attrs_of e)
    | None => graph_edges G !! k
    end.
Proof.
  revert G. induction edges as [|e edges IH]; intros G Hrun.
  - cbn in Hrun. now injection Hrun as <-.
  - cbn [add_edges] in Hrun. cbn [List.filter].
    destruct (endpoints names e) as [[a b]|] eqn:Ee.
    + destruct (edge_citation_context e) as [c|] eqn:Ec; [|discriminate].
      rewrite (IH _ Hrun). destruct (decide ((a, b) = k)) as [<- | Hne].
      * rewrite bool_decide_eq_true_2 by reflexivity. rewrite last_cons.
        destruct (last _); [reflexivity|].
        cbn [add_edge graph_edges]. rewrite lookup_insert_eq.
        unfold edge_attrs_of. now rewrite Ec.
      * rewrite bool_decide_eq_false_2 by congruence.
        destruct (last _); [reflexivity|].
        cbn [add_edge graph_edges]. now rewrite lookup_insert_ne.
    + rewrite bool_decide_eq_false_2 by discriminate. now apply IH.
Qed.

Lemma endpoints_drawn (s : store) (e : edge_row) (a b : str) :
  In e (tbl_edges s) ->
  endpoints (id_to_name (tbl_nodes s)) e = Some (a, b) ->
  is_Some (graph_nodes (add_nodes (tbl_nodes s) empty_graph) !! a) /\
  is_Some (graph_nodes (add_nodes (tbl_nodes s) empty_graph) !! b).
Proof.
  intros _ Ee. unfold endpoints in Ee.
  destruct (id_to_name (tbl_nodes s) !! edge_source_id e) as [[|c src]|] eqn:Es;
    try discriminate.
  destruct (id_to_name (tbl_nodes s) !! edge_target_id e) as [[|d tgt]|] eqn:Et;
    try discriminate.
  injection Ee as <- <-.
  apply id_to_name_stored in Es as (rs & Hrs & _ & Hns).
  apply id_to_name_stored in Et as (rt & Hrt & _ & Hnt).
  rewrite (proj1 (add_nodes_nodes (tbl_nodes s) empty_graph)).
  rewrite !(fold_left_insert_last node_name (fun r => Some (attrs_of r))).
  split.
  - destruct (last_filter_some (fun x => bool_decide (node_name x = c :: src)) _ rs Hrs)
      as [x ->]; [now apply bool_decide_eq_true | eauto].
  - destruct (last_filter_some (fun x => bool_decide (node_name x = d :: tgt)) _ rt Hrt)
      as [x ->]; [now apply bool_decide_eq_true | eauto].
Qed.

Lemma build_graph_parts (s : store) (G : DiGraph) :
  build_graph s = Some G ->
  graph_nodes G
  = fold_left (fun m r => <[node_name r := Some (attrs_of r)]> m) (tbl_nodes s) ∅.
Proof.
  intros Hrun. unfold build_graph in Hrun.
  rewrite (add_edges_nodes _ _ _ _ (endpoints_drawn s) Hrun).
  exact (proj1 (add_nodes_nodes (tbl_nodes s) empty_graph)).
Qed.

(** X19.  The graph has one node per name, not per stored node: the node
    drawn under a name carries the type and the colour of the last stored
    node with that name, a name that no stored node has is no node of the
    graph, and no node of the graph is without attributes. *)
Theorem build_graph_one_node_per_name (s : store) (G : DiGraph) :
  build_graph s = Some G ->
  forall nm,
    graph_nodes G !! nm
    = (fun r => Some (attrs_of r))
        <$> last (List.filter (fun r => bool_decide (node_name r = nm)) (tbl_nodes s)).
Proof.
  intros Hrun nm. rewrite (build_graph_parts s G Hrun).
  rewrite (fold_left_insert_last node_name (fun r => Some (attrs_of r))).
  destruct (last _); [reflexivity | apply lookup_empty].
Qed.


(** X20.  Building the graph fails, with the TypeError of slicing a null
    context, exactly when some edge between two stored nodes with non-empty
    names has no citation context.  The stores that the pipeline builds
    have a context on every edge, so for them it never fails. *)
Theorem build_graph_fails_on_null_context (s : store) :
  (build_graph s = None <->
   exists e, In e (tbl_edges s) /\
             is_Some (endpoints (id_to_name (tbl_nodes s)) e) /\
             edge_citation_context e = None) /\
  (contexts_present s = true -> is_Some (build_graph s)).
Proof.
  assert (forall names edges G,
            add_edges names edges G = None <->
            exists e, In e edges /\ is_Some (endpoints names e) /\
                      edge_citation_context e = None) as Hiff.
  { intros names edges. induction edges as [|e edges IH]; intros G.
    - cbn. split; [discriminate | intros (e & [] & _)].
    - cbn [add_edges]. destruct (endpoints names e) as [[a b]|] eqn:Ee.
      + destruct (edge_citation_context e) as [c|] eqn:Ec.
        * rewrite IH. split.
          -- intros (x & Hx & H). exists x. split; [now right | exact H].
          -- intros (x & [<- | Hx] & Hs & Hc); [congruence | eauto].
        * split; [|reflexivity]. intros _. exists e. rewrite Ee. split_and!; eauto. now left.
      + rewrite IH. split.
        * intros (x & Hx & H). exists x. split; [now right | exact H].
        * intros (x & [<- | Hx] & Hs & Hc); [|eauto].
          rewrite Ee in Hs. now destruct Hs. }
  split; [apply Hiff|].
  intros Hc. destruct (build_graph s) eqn:E; [eauto|].
  apply Hiff in E as (e & Hin & _ & Hnull).
  unfold contexts_present in Hc. rewrite forallb_forall in Hc.
  specialize (Hc e Hin). apply bool_decide_eq_true in Hc.
  rewrite Hnull in Hc. now destruct Hc.
Qed.

(** X21.  The graph has at most one edge from one name to another: it
    carries the relation type and the hover text of the last stored edge
    between nodes of these two names, whatever types the earlier ones had.
    Both ends of every edge that is drawn are nodes with attributes. *)
Theorem build_graph_one_edge_per_pair (s : store) (G : DiGraph) :
  build_graph s = Some G ->
  forall a b,
    graph_edges G !! (a, b)
    = edge_attrs_of
        <$> last (List.filter
                    (fun e => bool_decide (endpoints (id_to_name (tbl_nodes s)) e = Some (a, b)))
                    (tbl_edges s)) /\
    (is_Some (graph_edges G !! (a, b)) ->
     exists x y, graph_nodes G !! a = Some (Some x) /\ graph_nodes G !! b = Some (Some y)).
Proof.
  intros Hrun a b.
  assert (graph_edges G !! (a, b)
          = edge_attrs_of
              <$> last (List.filter
                          (fun e => bool_decide
                                      (endpoints (id_to_name (tbl_nodes s)) e = Some (a, b)))
                          (tbl_edges s))) as Hedge.
  { unfold build_graph in Hrun. rewrite (add_edges_edges _ _ _ _ (a, b) Hrun).
    destruct (last _); [reflexivity|].
    rewrite (proj2 (add_nodes_nodes (tbl_nodes s) empty_graph)). apply lookup_empty. }
  split; [exact Hedge|].
  rewrite Hedge. intros [x Hx].
  destruct (last _) as [e|] eqn:El; [|discriminate].
  apply last_filter_in in El as [_ Ee]. apply bool_decide_eq_true in Ee.
  unfold endpoints in Ee.
  destruct (id_to_name (tbl_nodes s) !! edge_source_id e) as [[|c src]|] eqn:Es;
    try discriminate.
  destruct (id_to_name (tbl_nodes s) !! edge_target_id e) as [[|d tgt]|] eqn:Et;
    try discriminate.
  injection Ee as <- <-.
  apply id_to_name_stored in Es as (rs & Hrs & _ & Hns).
  apply id_to_name_stored in Et as (rt & Hrt & _ & Hnt).
  rewrite !(build_graph_parts s G Hrun).
  rewrite !(fold_left_insert_last node_name (fun r => Some (attrs_of r))).
  destruct (last_filter_some (fun x => bool_decide (node_name x = c :: src)) _ rs Hrs)
    as [xs ->]; [now apply bool_decide_eq_true|].
  destruct (last_filter_some (fun x => bool_decide (node_name x = d :: tgt)) _ rt Hrt)
    as [xt ->]; [now apply bool_decide_eq_true|].
  eauto.
Qed.

End Drawing.

Lemma build_graph_one_node_per_name_witness :
  let s := add_node (add_node reset_database (lit "NeRF") (lit "Method") [])
                    (lit "NeRF") (lit "Paper") [] in
  let G := match Visualize.build_graph s with Some G => G | None => Visualize.empty_graph end in
  Visualize.build_graph s = Some G /\
  Visualize.attr_title <$> (Visualize.graph_nodes G !! lit "NeRF") ≫= id = Some (lit "Paper").
Proof.
  intros s G.
  assert (Visualize.build_graph s = Some G) as Hrun by (vm_compute; reflexivity).
  split; [exact Hrun|].
  rewrite (build_graph_one_node_per_name s G Hrun (lit "NeRF")).
  vm_compute. reflexivity.
Defined.

Lemma build_graph_one_edge_per_pair_witness :
  let s := add_edge (add_edge (add_node (add_node reset_database (lit "3DGS") (lit "Method") [])
                                        (lit "NeRF") (lit "Method") [])
                              1 2 (lit "IMPROVES_ON") (lit "faster"))
                    1 2 (lit "ALTERNATIVE_TO") (lit "instead") in
  let G := match Visualize.build_graph s with Some G => G | None => Visualize.empty_graph end in
  Visualize.build_graph s = Some G /\
  Visualize.attr_text <$> (Visualize.graph_edges G !! (lit "3DGS", lit "NeRF")) = Some (lit "ALTERNATIVE_TO").
Proof.
  intros s G.
  assert (Visualize.build_graph s = Some G) as Hrun by (vm_compute; reflexivity).
  split; [exact Hrun|].
  rewrite (proj1 (build_graph_one_edge_per_pair s G Hrun (lit "3DGS") (lit "NeRF"))).
  vm_compute. reflexivity.
Defined.
